(** * wiki-journey: the multiplayer room coordinator (server socket module)

    A shallow embedding of the socket.io room module of the server
    ([setupSocket] and [generateName]) and the properties of its
    event handlers; then of the HTTP route that starts a game with its
    title helpers, and of the game page of the client, which sends the
    events the room module handles.

    The module keeps one process-wide registry [rooms] (room code to room),
    and every handler runs to completion on it.  A handler is modelled as a
    function from the server state before the event to a [Completion]:
    the state after the event together with the messages it sent, or the
    [TypeError] the JavaScript code throws when it reads a property of
    [undefined].

    Two things the handlers use belong to the runtime and are not code of
    the module:
    - the socket.io adapter, which records which sockets joined which
      socket.io room ([socket.join]), is the audience of [io.to(room)] and
      of [socket.to(room)], and drops a socket from every room before its
      "disconnect" handler runs;
    - [Math.random], whose results are passed to the handlers as arguments:
      the room code drawn by [create_room] as the string it becomes, and the
      two draws of [generateName] as rationals.

    The objects [rooms] and [playerStates] are used as maps from strings and
    are finite maps here: a lookup finds what was stored under the key, so
    keys that name a property every JavaScript object inherits are left
    out.  Payloads have the types the handlers declare; the click count,
    which [update_progress] leaves undeclared, is an integer, the values
    the field [clicks: number] is meant for. *)

From Stdlib Require Import ZArith QArith Qround Ascii.
From stdpp Require Import base gmap strings list fin_maps.

Local Open Scope string_scope.
Local Open Scope list_scope.
Local Open Scope nat_scope.
Local Open Scope stdpp_scope.

Set Warnings "-clear-no-such-hyp".

(** ** Data model *)

Inductive GameState := waiting | playing | finished.

#[global] Instance GameState_eq_dec : EqDecision GameState.
Proof. solve_decision. Defined.

(** [interface PlayerState]; the field [id] is [ps_id] here. *)
Record PlayerState := mkPlayerState {
  ps_id : string;
  name : string;
  clicks : Z;
  currentArticle : string;
  history : list string
}.

(** [interface Room]; the field [id] is [room_id] here, and the optional
    fields are options. *)
Record Room := mkRoom {
  room_id : string;
  players : list string;
  gameState : GameState;
  startArticle : option string;
  targetArticle : option string;
  playerStates : gmap string PlayerState
}.

(** The state of the process: the registry [rooms] and the adapter of the
    socket.io server [io]. *)
Record Server := mkServer {
  rooms : gmap string Room;
  adapter : gmap string (gset string)
}.

Definition init : Server := {| rooms := ∅; adapter := ∅ |}.

(** ** Messages *)

(** An entry [{id, name}] of a [players] payload. *)
Definition PlayerEntry : Type := string * string.

Inductive Message :=
| create_room_ack (roomId : string) (entries : list PlayerEntry)
| join_room_error (error : string)
| join_room_ack (roomId : string) (entries : list PlayerEntry)
| player_joined (entries : list PlayerEntry)
| game_started (start target : string)
| opponent_progress (playerId playerName article : string) (reported : Z)
| player_won (winnerId winnerName : string) (path : list string)
| reset_to_lobby
| player_left (playerId : string) (entries : list PlayerEntry).

(** What a handler sends: the acknowledgement [callback(...)] to the
    calling socket, or an event delivered to a set of sockets. *)
Inductive Emission :=
| callback (sid : string) (m : Message)
| emit (recipients : gset string) (m : Message).

Inductive Completion :=
| Normal (s : Server) (out : list Emission)
| TypeError.

(** ** The socket.io adapter *)

Definition sockets_in (a : gmap string (gset string)) (room : string) : gset string :=
  default ∅ (a !! room).

(** [socket.join(room)] *)
Definition socket_join (a : gmap string (gset string)) (sid room : string)
  : gmap string (gset string) :=
  <[room := {[sid]} ∪ sockets_in a room]> a.

(** A closing socket leaves every room. *)
Definition leave_all (a : gmap string (gset string)) (sid : string)
  : gmap string (gset string) :=
  (λ members, members ∖ {[sid]}) <$> a.

(** The audience of [io.to(roomId).emit]. *)
Definition io_to (s : Server) (roomId : string) : gset string :=
  sockets_in (adapter s) roomId.

(** The audience of [socket.to(roomId).emit]: the room without the sender. *)
Definition socket_to (s : Server) (sid roomId : string) : gset string :=
  sockets_in (adapter s) roomId ∖ {[sid]}.

(** ** Name generator *)

Definition ADJECTIVES : list string :=
  ["Neon"; "Cyber"; "Mega"; "Super"; "Ultra"; "Quantum"; "Pixel"; "Techno"; "Retro"; "Binary"].

Definition ANIMALS : list string :=
  ["Fox"; "Owl"; "Wolf"; "Bear"; "Cat"; "Dog"; "Hawk"; "Eagle"; "Shark"; "Dragon"].

(** [Math.floor(r * len)] for a draw [r] of [Math.random()]. *)
Definition random_index (r : Q) (len : nat) : nat :=
  Z.to_nat (Qfloor (r * inject_Z (Z.of_nat len))).

(** An array element inside a template literal: a missing one prints as
    [undefined]. *)
Definition interpolate (element : option string) : string :=
  default "undefined" element.

Definition generateName (r_adj r_animal : Q) : string :=
  let adj := ADJECTIVES !! random_index r_adj (length ADJECTIVES) in
  let animal := ANIMALS !! random_index r_animal (length ANIMALS) in
  interpolate adj +:+ " " +:+ interpolate animal.

(** [username || fallback] on strings: only the empty string is falsy. *)
Definition or_else (username fallback : string) : string :=
  if decide (username = "") then fallback else username.

(** ** Handlers *)

Definition new_player (sid playerName : string) : PlayerState :=
  {| ps_id := sid; name := playerName; clicks := 0%Z;
     currentArticle := ""; history := [] |}.

(** [room.players.map(pid => ({ id: pid, name: room.playerStates[pid].name }))]:
    reading [.name] of a missing entry throws. *)
Definition roster (room : Room) : option (list PlayerEntry) :=
  mapM (λ pid, ps ← playerStates room !! pid; Some (pid, name ps)) (players room).

Definition set_room (s : Server) (roomId : string) (room : Room) : Server :=
  {| rooms := <[roomId := room]> (rooms s); adapter := adapter s |}.

(** The handler registration itself: socket.io puts a new socket in the
    room named by its own id. *)
Definition connection (s : Server) (sid : string) : Completion :=
  Normal {| rooms := rooms s; adapter := socket_join (adapter s) sid sid |} [].

Definition create_room (s : Server) (sid username roomId : string)
    (r_adj r_animal : Q) : Completion :=
  let playerName := or_else username (generateName r_adj r_animal) in
  let room :=
    {| room_id := roomId; players := [sid]; gameState := waiting;
       startArticle := None; targetArticle := None;
       playerStates := {[ sid := new_player sid playerName ]} |} in
  Normal {| rooms := <[roomId := room]> (rooms s);
            adapter := socket_join (adapter s) sid roomId |}
         [callback sid (create_room_ack roomId [(sid, playerName)])].

Definition join_room (s : Server) (sid roomId username : string)
    (r_adj r_animal : Q) : Completion :=
  match rooms s !! roomId with
  | None => Normal s [callback sid (join_room_error "Room not found")]
  | Some room =>
    if decide (gameState room ≠ waiting) then
      Normal s [callback sid (join_room_error "Game already started")]
    else if decide (8 ≤ length (players room)) then
      Normal s [callback sid (join_room_error "Room is full")]
    else
      let playerName := or_else username (generateName r_adj r_animal) in
      let room' :=
        {| room_id := room_id room;
           players := players room ++ [sid];
           gameState := gameState room;
           startArticle := startArticle room;
           targetArticle := targetArticle room;
           playerStates := <[sid := new_player sid playerName]> (playerStates room) |} in
      let s' :=
        {| rooms := <[roomId := room']> (rooms s);
           adapter := socket_join (adapter s) sid roomId |} in
      match roster room' with
      | None => TypeError
      | Some allPlayers =>
        Normal s' [callback sid (join_room_ack roomId allPlayers);
                   emit (io_to s' roomId) (player_joined allPlayers)]
      end
  end.

Definition reset_player (start : string) (ps : PlayerState) : PlayerState :=
  {| ps_id := ps_id ps; name := name ps; clicks := 0%Z;
     currentArticle := start; history := [start] |}.

(** The body of [room.players.forEach] in [start_game]. *)
Definition reset_member (start : string) (states : gmap string PlayerState)
    (pid : string) : gmap string PlayerState :=
  match states !! pid with
  | Some ps => <[pid := reset_player start ps]> states
  | None => states
  end.

Definition start_game (s : Server) (sid roomId start target : string) : Completion :=
  match rooms s !! roomId with
  | None => Normal s []
  | Some room =>
    if decide (length (players room) < 2) then Normal s []
    else
      let room' :=
        {| room_id := room_id room;
           players := players room;
           gameState := playing;
           startArticle := Some start;
           targetArticle := Some target;
           playerStates := foldl (reset_member start) (playerStates room) (players room) |} in
      Normal (set_room s roomId room') [emit (io_to s roomId) (game_started start target)]
  end.

Definition update_progress (s : Server) (sid roomId article : string)
    (reported : Z) : Completion :=
  match rooms s !! roomId with
  | None => Normal s []
  | Some room =>
    if decide (gameState room ≠ playing) then Normal s []
    else
      match playerStates room !! sid with
      | None => Normal s []
      | Some player =>
        let player' :=
          {| ps_id := ps_id player; name := name player; clicks := reported;
             currentArticle := article; history := history player ++ [article] |} in
        let room' :=
          {| room_id := room_id room;
             players := players room;
             gameState := gameState room;
             startArticle := startArticle room;
             targetArticle := targetArticle room;
             playerStates := <[sid := player']> (playerStates room) |} in
        Normal (set_room s roomId room')
               [emit (socket_to s sid roomId)
                     (opponent_progress sid (name player) article reported)]
      end
  end.

Definition game_win (s : Server) (sid roomId : string) (path : list string) : Completion :=
  match rooms s !! roomId with
  | None => Normal s []
  | Some room =>
    if decide (gameState room ≠ playing) then Normal s []
    else
      match playerStates room !! sid with
      | None => TypeError
      | Some winner => Normal s [emit (io_to s roomId) (player_won sid (name winner) path)]
      end
  end.

Definition return_to_lobby (s : Server) (sid roomId : string) : Completion :=
  match rooms s !! roomId with
  | None => Normal s []
  | Some room =>
    let room' :=
      {| room_id := room_id room;
         players := players room;
         gameState := waiting;
         startArticle := startArticle room;
         targetArticle := targetArticle room;
         playerStates := playerStates room |} in
    Normal (set_room s roomId room') [emit (io_to s roomId) reset_to_lobby]
  end.

(** [room.players = room.players.filter(id => id !== socket.id)]; the
    entry of [playerStates] stays. *)
Definition remove_player (sid : string) (room : Room) : Room :=
  {| room_id := room_id room;
     players := filter (λ pid, pid ≠ sid) (players room);
     gameState := gameState room;
     startArticle := startArticle room;
     targetArticle := targetArticle room;
     playerStates := playerStates room |}.

(** One turn of the loop [for (const roomId in rooms)] of the disconnect
    handler, on the registry and the messages sent so far; [None] when the
    turn throws. *)
Definition disconnect_room (sid : string) (a : gmap string (gset string))
    (roomId : string) (acc : gmap string Room * list Emission)
  : option (gmap string Room * list Emission) :=
  match acc.1 !! roomId with
  | None => Some acc
  | Some room =>
    if decide (sid ∈ players room) then
      let room' := remove_player sid room in
      remainingPlayers ← roster room';
      let out := acc.2 ++ [emit (sockets_in a roomId) (player_left sid remainingPlayers)] in
      if decide (length (players room') = 0)
      then Some (delete roomId acc.1, out)
      else Some (<[roomId := room']> acc.1, out)
    else Some acc
  end.

Fixpoint disconnect_loop (sid : string) (a : gmap string (gset string))
    (codes : list string) (acc : gmap string Room * list Emission)
  : option (gmap string Room * list Emission) :=
  match codes with
  | [] => Some acc
  | roomId :: rest =>
    acc' ← disconnect_room sid a roomId acc;
    disconnect_loop sid a rest acc'
  end.

(** The loop visits the codes of the registry as they are when the handler
    starts; the order in which two rooms are visited is the one of
    [map_to_list] and only decides the order of their [player_left]
    messages. *)
Definition disconnect (s : Server) (sid : string) : Completion :=
  let a := leave_all (adapter s) sid in
  match disconnect_loop sid a (map_to_list (rooms s)).*1 (rooms s, []) with
  | None => TypeError
  | Some (registry, out) => Normal {| rooms := registry; adapter := a |} out
  end.

(** ** Events *)

Inductive Event :=
| Connection (sid : string)
| CreateRoom (sid username roomId : string) (r_adj r_animal : Q)
| JoinRoom (sid roomId username : string) (r_adj r_animal : Q)
| StartGame (sid roomId start target : string)
| UpdateProgress (sid roomId article : string) (reported : Z)
| GameWin (sid roomId : string) (path : list string)
| ReturnToLobby (sid roomId : string)
| Disconnect (sid : string).

Definition handle (s : Server) (e : Event) : Completion :=
  match e with
  | Connection sid => connection s sid
  | CreateRoom sid username roomId r_adj r_animal =>
      create_room s sid username roomId r_adj r_animal
  | JoinRoom sid roomId username r_adj r_animal =>
      join_room s sid roomId username r_adj r_animal
  | StartGame sid roomId start target => start_game s sid roomId start target
  | UpdateProgress sid roomId article reported =>
      update_progress s sid roomId article reported
  | GameWin sid roomId path => game_win s sid roomId path
  | ReturnToLobby sid roomId => return_to_lobby s sid roomId
  | Disconnect sid => disconnect s sid
  end.

(** Events processed one after the other, each to completion; the run stops
    at the first handler that throws. *)
Fixpoint run (s : Server) (events : list Event) : Completion :=
  match events with
  | [] => Normal s []
  | e :: rest =>
    match handle s e with
    | Normal s' out =>
      match run s' rest with
      | Normal s'' out' => Normal s'' (out ++ out')
      | TypeError => TypeError
      end
    | TypeError => TypeError
    end
  end.

Inductive reachable : Server → Prop :=
| reachable_init : reachable init
| reachable_step s e s' out :
    reachable s → handle s e = Normal s' out → reachable s'.

(** ** Notions used in the statements and proofs *)

(** What one turn of the loop makes of a room: unchanged when the socket is
    not listed, without the socket otherwise, and gone when that leaves no
    player. *)
Definition leave (sid : string) (room : Room) : option Room :=
  if decide (sid ∈ players room) then
    if decide (length (players (remove_player sid room)) = 0) then None
    else Some (remove_player sid room)
  else Some room.


(** What holds of every registered room between two events: every listed
    player has an entry in [playerStates], is in the socket.io room of the
    same code, and the list has between one and eight elements. *)
Record room_ok (a : gmap string (gset string)) (roomId : string) (room : Room) : Prop :=
  RoomOk {
    ok_states : ∀ pid, pid ∈ players room → is_Some (playerStates room !! pid);
    ok_joined : ∀ pid, pid ∈ players room → pid ∈ sockets_in a roomId;
    ok_capacity : length (players room) ≤ 8;
    ok_nonempty : players room ≠ []
  }.

Definition consistent (s : Server) : Prop :=
  ∀ roomId room, rooms s !! roomId = Some room → room_ok (adapter s) roomId room.

(** The room [start_game] stores for a room with at least two listed
    players. *)
Definition started (start target : string) (room : Room) : Room :=
  {| room_id := room_id room;
     players := players room;
     gameState := playing;
     startArticle := Some start;
     targetArticle := Some target;
     playerStates := foldl (reset_member start) (playerStates room) (players room) |}.

Definition with_gameState (g : GameState) (room : Room) : Room :=
  {| room_id := room_id room;
     players := players room;
     gameState := g;
     startArticle := startArticle room;
     targetArticle := targetArticle room;
     playerStates := playerStates room |}.

Definition created (sid playerName roomId : string) : Room :=
  {| room_id := roomId; players := [sid]; gameState := waiting;
     startArticle := None; targetArticle := None;
     playerStates := {[ sid := new_player sid playerName ]} |}.

Definition admitted (sid playerName : string) (room : Room) : Room :=
  {| room_id := room_id room;
     players := players room ++ [sid];
     gameState := gameState room;
     startArticle := startArticle room;
     targetArticle := targetArticle room;
     playerStates := <[sid := new_player sid playerName]> (playerStates room) |}.

Definition progressed (article : string) (reported : Z) (player : PlayerState)
  : PlayerState :=
  {| ps_id := ps_id player; name := name player; clicks := reported;
     currentArticle := article; history := history player ++ [article] |}.

Definition with_playerState (sid : string) (ps : PlayerState) (room : Room) : Room :=
  {| room_id := room_id room;
     players := players room;
     gameState := gameState room;
     startArticle := startArticle room;
     targetArticle := targetArticle room;
     playerStates := <[sid := ps]> (playerStates room) |}.

(** What is registered under [roomId] after the event [e], when [room] was
    registered there before it. *)
Definition room_after (e : Event) (roomId : string) (room : Room) : option Room :=
  match e with
  | Connection _ => Some room
  | CreateRoom sid username code r_adj r_animal =>
    if decide (code = roomId)
    then Some (created sid (or_else username (generateName r_adj r_animal)) code)
    else Some room
  | JoinRoom sid code username r_adj r_animal =>
    if decide (code = roomId ∧ gameState room = waiting ∧ length (players room) < 8)
    then Some (admitted sid (or_else username (generateName r_adj r_animal)) room)
    else Some room
  | StartGame _ code start target =>
    if decide (code = roomId ∧ 2 ≤ length (players room))
    then Some (started start target room)
    else Some room
  | UpdateProgress sid code article reported =>
    if decide (code = roomId ∧ gameState room = playing)
    then match playerStates room !! sid with
         | Some player => Some (with_playerState sid (progressed article reported player) room)
         | None => Some room
         end
    else Some room
  | GameWin _ _ _ => Some room
  | ReturnToLobby _ code =>
    if decide (code = roomId) then Some (with_gameState waiting room) else Some room
  | Disconnect sid => leave sid room
  end.




(** White space as [String.prototype.trim] strips it, within ASCII. *)
Definition is_white_space (c : Ascii.ascii) : bool :=
  bool_decide (Ascii.nat_of_ascii c ∈ [32; 9; 10; 11; 12; 13]).

Fixpoint trimStart (s : string) : string :=
  match s with
  | String c rest => if is_white_space c then trimStart rest else s
  | EmptyString => EmptyString
  end.

Fixpoint trimEnd (s : string) : string :=
  match s with
  | String c rest =>
    let rest' := trimEnd rest in
    if is_white_space c && bool_decide (rest' = "") then "" else String c rest'
  | EmptyString => EmptyString
  end.

Definition trim (s : string) : string := trimEnd (trimStart s).

(** The name resolution in the words of the specification: the trimmed
    request when that is not empty, else the generated name. *)
Definition spec_resolveName (requested generated : string) : string :=
  if decide (trim requested = "") then generated else trim requested.

(** The name stored for [sid] in the room registered under [roomId]. *)
Definition stored_name (s : Server) (roomId sid : string) : option string :=
  room ← rooms s !! roomId; ps ← playerStates room !! sid; Some (name ps).

(** The clicks stored for [pid] in the room registered under [roomId]. *)
Definition stored_clicks (s : Server) (roomId pid : string) : option Z :=
  room ← rooms s !! roomId; ps ← playerStates room !! pid; Some (clicks ps).

(** The keys of [playerStates] are the listed players. *)
Definition keys_are_players (room : Room) : Prop :=
  dom (playerStates room) = list_to_set (players room).

Definition in_no_room (s : Server) (sid : string) : Prop :=
  map_Forall (λ _ room, sid ∉ players room) (rooms s).

(** No connection is listed in two rooms. *)
Definition one_room_each (s : Server) : Prop :=
  ∀ sid code1 code2 room1 room2,
    rooms s !! code1 = Some room1 → rooms s !! code2 = Some room2 →
    sid ∈ players room1 → sid ∈ players room2 → code1 = code2.

(** The client's discipline: a connection sends [create_room] or
    [join_room] only while no room lists it. *)
Definition polite (s : Server) (e : Event) : Prop :=
  match e with
  | CreateRoom sid _ _ _ _ | JoinRoom sid _ _ _ _ => in_no_room s sid
  | _ => True
  end.

Inductive politely_reachable : Server → Prop :=
| politely_init : politely_reachable init
| politely_step s e s' out :
    politely_reachable s → polite s e → handle s e = Normal s' out →
    politely_reachable s'.

(** The event lists its sender in the room registered under [code]. *)
Definition enters (e : Event) (sid code : string) : Prop :=
  match e with
  | CreateRoom sid' _ code' _ _ | JoinRoom sid' code' _ _ _ => sid' = sid ∧ code' = code
  | _ => False
  end.

Definition state_of (c : Completion) : Server :=
  match c with Normal s _ => s | TypeError => init end.

Definition completes (c : Completion) : bool :=
  match c with Normal _ _ => true | TypeError => false end.

Definition room_of (s : Server) (roomId : string) : Room :=
  default (created "" "" roomId) (rooms s !! roomId).

Definition player_of (room : Room) (pid : string) : PlayerState :=
  default (new_player pid "") (playerStates room !! pid).

(** Ann creates a room and a second connection joins it without a name. *)
Definition lobby_events : list Event :=
  [Connection "A"; CreateRoom "A" "Ann" "R1" 0 0;
   Connection "B"; JoinRoom "B" "R1" "" (3 # 10) (99 # 100)].

Definition round_events : list Event :=
  lobby_events ++ [StartGame "A" "R1" "Dog" "Cat"].


Definition lobby : Server := state_of (run init lobby_events).
Definition round : Server := state_of (run init round_events).

(** The second connection reports its first click. *)
Definition progress_event : Event := UpdateProgress "B" "R1" "Cat" 1.

Definition after_progress : Server := state_of (handle round progress_event).

Fixpoint politely (s : Server) (events : list Event) : Prop :=
  match events with
  | [] => True
  | e :: rest =>
    polite s e ∧
    match handle s e with
    | Normal s' _ => politely s' rest
    | TypeError => False
    end
  end.

#[global] Instance in_no_room_dec s sid : Decision (in_no_room s sid).
Proof. unfold in_no_room. apply _. Defined.

#[global] Instance polite_dec s e : Decision (polite s e).
Proof. destruct e; simpl; apply _. Defined.

(** ** Notions used in the further properties *)

(** The room code an event carries, if any. *)
Definition event_code (e : Event) : option string :=
  match e with
  | Connection _ | Disconnect _ => None
  | CreateRoom _ _ code _ _ | JoinRoom _ code _ _ _ | StartGame _ code _ _
  | UpdateProgress _ code _ _ | GameWin _ code _ | ReturnToLobby _ code => Some code
  end.

(** The [update_progress] events of one connection, for a list of reported
    articles and click counts. *)
Definition progress_events (sid roomId : string) (reports : list (string * Z))
  : list Event :=
  (λ r, UpdateProgress sid roomId r.1 r.2) <$> reports.

(** The entry of [playerStates] under [pid] carries [pid], and the room
    carries the code it is registered under. *)
Definition ids_match (code : string) (room : Room) : Prop :=
  room_id room = code ∧
  ∀ pid ps, playerStates room !! pid = Some ps → ps_id ps = pid.

(** In a room that is [playing] both articles are set, and the history of
    every listed player begins with the start article and ends with the
    player's current article. *)
Definition round_histories (room : Room) : Prop :=
  gameState room = playing →
  ∃ start target,
    startArticle room = Some start ∧ targetArticle room = Some target ∧
    ∀ pid ps, pid ∈ players room → playerStates room !! pid = Some ps →
      ∃ rest, history ps = start :: rest ∧
              last (history ps) = Some (currentArticle ps).

(** ** The HTTP routes of the server *)

Module Routes.

Definition NON_ARTICLE_PREFIXES : list string :=
  ["File:"; "Special:"; "Category:"; "Help:"; "Wikipedia:"; "Template:"; "Talk:";
   "Portal:"; "User:"; "Draft:"; "Module:"; "MediaWiki:"; "TimedText:"; "Book:"].

(** [String.prototype.startsWith] *)
Fixpoint startsWith (s prefix : string) {struct prefix} : bool :=
  match prefix with
  | EmptyString => true
  | String p prefix' =>
    match s with
    | EmptyString => false
    | String c s' => Ascii.eqb c p && startsWith s' prefix'
    end
  end.

(** [String.prototype.toLowerCase] on the letters A to Z, which is what it
    does on the prefixes above. *)
Definition lower (c : Ascii.ascii) : Ascii.ascii :=
  let n := Ascii.nat_of_ascii c in
  if (65 <=? n) && (n <=? 90) then Ascii.ascii_of_nat (n + 32) else c.

Fixpoint toLowerCase (s : string) : string :=
  match s with
  | EmptyString => EmptyString
  | String c s' => String (lower c) (toLowerCase s')
  end.

Definition isArticleLink (href : string) : bool :=
  negb (existsb (λ prefix, startsWith href prefix || startsWith href (toLowerCase prefix))
                NON_ARTICLE_PREFIXES).

(** [s.replace(/ /g, "_")] *)
Fixpoint replace_spaces (s : string) : string :=
  match s with
  | EmptyString => EmptyString
  | String c s' =>
    String (if Ascii.eqb c " " then "_"%char else c) (replace_spaces s')
  end.

(** [getRandomArticles]: the titles of the answer of Wikipedia, [None]
    when the request or the reading of its answer throws. *)
Definition getRandomArticles (answer : option (list string)) : option (list string) :=
  fmap (M := list) replace_spaces <$> answer.

(** A field of the request body: [None] when it is missing; of the strings
    only the empty one is falsy. *)
Definition truthy (field : option string) : bool :=
  match field with
  | Some value => negb (String.eqb value "")
  | None => false
  end.

Inductive Reply :=
| json (startArticle targetArticle : option string)
| error500.

(** The handler of [POST /api/game/new]. *)
Definition new_game (startArticle targetArticle : option string)
    (answer : option (list string)) : Reply :=
  let articles :=
    if truthy startArticle && truthy targetArticle
    then Some (replace_spaces <$> [default "" startArticle; default "" targetArticle])
    else getRandomArticles answer in
  match articles with
  | Some articles => json (articles !! 0) (articles !! 1)
  | None => error500
  end.

End Routes.

(** ** The game page of the client *)

(** The state of [GamePage] and the functions that change it, each as a
    function from the state of one rendering to the next.  The state holds
    what these functions read and write: the game, the clock, the two
    modals, the mode, the code of the room ([lobbyState.roomId]), the
    players of the lobby and the opponents. *)
Module Client.

(** [GameState] of the shared schema. *)
Record GameState := mkGameState {
  startArticle : string;
  targetArticle : string;
  currentArticle : string;
  path : list string;
  clicks : Z;
  startTime : Z;
  isComplete : bool
}.

Inductive GameMode := random | manual | multiplayer.

#[global] Instance GameMode_eq_dec : EqDecision GameMode.
Proof. solve_decision. Defined.

(** [interface OpponentState]; its fields [id], [name], [clicks] and
    [currentArticle] carry the prefix [o_] here. *)
Record OpponentState := mkOpponentState {
  o_id : string;
  o_name : string;
  o_clicks : Z;
  o_currentArticle : string;
  isWinner : bool
}.

Record Page := mkPage {
  gameState : option GameState;
  timeLeft : Z;
  showWinModal : bool;
  showLoseModal : bool;
  gameMode : GameMode;
  roomId : string;
  lobbyPlayers : list (string * string);
  opponents : gmap string OpponentState
}.

(** What the start screen emits on the socket. *)
Inductive LobbySent :=
| send_create_room (username : string)
| send_join_room (roomId username : string).

(** What the game page emits on the socket during a game. *)
Inductive GameSent :=
| send_update_progress (roomId article : string) (clicks : Z)
| send_game_win (roomId : string) (path : list string).

(** [createRoom] of the start screen; [trim] strips the white space of
    ASCII, and usernames are taken to have no other. *)
Definition createRoom (username : string) : list LobbySent :=
  if decide (trim username = "") then [] else [send_create_room username].

(** [joinRoom] of the start screen *)
Definition joinRoom (joinRoomId username : string) : list LobbySent :=
  if decide (joinRoomId = "") then []
  else if decide (trim username = "") then []
  else [send_join_room joinRoomId username].

(** [onSuccess] of the new-game request, with the two articles of the
    answer and the time [Date.now()]. *)
Definition newGame (p : Page) (start target : string) (now : Z) : Page :=
  {| gameState :=
       Some {| startArticle := start; targetArticle := target;
               currentArticle := start; path := [start]; clicks := 0;
               startTime := now; isComplete := false |};
     timeLeft := 180;
     showWinModal := false;
     showLoseModal := false;
     gameMode := gameMode p;
     roomId := roomId p;
     lobbyPlayers := lobbyPlayers p;
     opponents := ∅ |}.

Definition handleLinkClick (p : Page) (title : string) : Page * list GameSent :=
  match gameState p with
  | None => (p, [])
  | Some g =>
    if isComplete g then (p, [])
    else
      let newPath := path g ++ [title] in
      let isWin := bool_decide (title = targetArticle g) in
      let newClicks := (clicks g + 1)%Z in
      let g' :=
        {| startArticle := startArticle g; targetArticle := targetArticle g;
           currentArticle := title; path := newPath; clicks := newClicks;
           startTime := startTime g; isComplete := isWin |} in
      ({| gameState := Some g';
          timeLeft := timeLeft p;
          showWinModal := if isWin then true else showWinModal p;
          showLoseModal := showLoseModal p;
          gameMode := gameMode p;
          roomId := roomId p;
          lobbyPlayers := lobbyPlayers p;
          opponents := opponents p |},
       (if decide (gameMode p = multiplayer)
        then [send_update_progress (roomId p) title newClicks] else []) ++
       (if isWin
        then if decide (gameMode p = multiplayer)
             then [send_game_win (roomId p) newPath] else []
        else []))
  end.

(** One second of the clock: the interval runs while there is a game that
    is not complete. *)
Definition tick (p : Page) : Page :=
  match gameState p with
  | None => p
  | Some g =>
    if isComplete g then p
    else if decide (timeLeft p ≤ 1)%Z then
      {| gameState :=
           Some {| startArticle := startArticle g; targetArticle := targetArticle g;
                   currentArticle := currentArticle g; path := path g;
                   clicks := clicks g; startTime := startTime g;
                   isComplete := true |};
         timeLeft := 0;
         showWinModal := showWinModal p;
         showLoseModal := true;
         gameMode := gameMode p;
         roomId := roomId p;
         lobbyPlayers := lobbyPlayers p;
         opponents := opponents p |}
    else
      {| gameState := gameState p;
         timeLeft := timeLeft p - 1;
         showWinModal := showWinModal p;
         showLoseModal := showLoseModal p;
         gameMode := gameMode p;
         roomId := roomId p;
         lobbyPlayers := lobbyPlayers p;
         opponents := opponents p |}
  end.

Definition with_opponents (p : Page) (next : gmap string OpponentState) : Page :=
  {| gameState := gameState p;
     timeLeft := timeLeft p;
     showWinModal := showWinModal p;
     showLoseModal := showLoseModal p;
     gameMode := gameMode p;
     roomId := roomId p;
     lobbyPlayers := lobbyPlayers p;
     opponents := next |}.

(** The listener of [opponent_progress]; the listeners of the game page
    are there in multiplayer mode only. *)
Definition on_opponent_progress (p : Page) (playerId playerName article : string)
    (reported : Z) : Page :=
  if decide (gameMode p = multiplayer) then
    with_opponents p
      (<[playerId :=
           {| o_id := playerId; o_name := playerName; o_clicks := reported;
              o_currentArticle := article;
              isWinner := match opponents p !! playerId with
                          | Some prev => isWinner prev || false
                          | None => false
                          end |}]> (opponents p))
  else p.

(** The listener of [player_won]. *)
Definition on_player_won (p : Page) (winnerId winnerName : string) : Page :=
  if decide (gameMode p = multiplayer) then
    let known :=
      default {| o_id := winnerId; o_name := winnerName; o_clicks := 0;
                 o_currentArticle := ""; isWinner := false |}
              (opponents p !! winnerId) in
    with_opponents p
      (<[winnerId :=
           {| o_id := o_id known; o_name := o_name known; o_clicks := o_clicks known;
              o_currentArticle := o_currentArticle known; isWinner := true |}]>
         (opponents p))
  else p.

(** The body of the loop over [Object.keys(next)] in the listener of
    [player_left]. *)
Definition drop_if_left (currentIds : list string)
    (next : gmap string OpponentState) (key : string) : gmap string OpponentState :=
  if decide (key ∈ currentIds) then next else delete key next.

(** The listener of [player_left]. *)
Definition on_player_left (p : Page) (players : list (string * string)) : Page :=
  if decide (gameMode p = multiplayer) then
    {| gameState := gameState p;
       timeLeft := timeLeft p;
       showWinModal := showWinModal p;
       showLoseModal := showLoseModal p;
       gameMode := gameMode p;
       roomId := roomId p;
       lobbyPlayers := players;
       opponents :=
         foldl (drop_if_left players.*1) (opponents p)
               (map_to_list (opponents p)).*1 |}
  else p.

(** A click on a link or a second of the clock. *)
Inductive Action := Click (title : string) | Tick.

Definition act (p : Page) (a : Action) : Page :=
  match a with
  | Click title => (handleLinkClick p title).1
  | Tick => tick p
  end.

End Client.

(** ** The client and the server together *)

(** The socket delivers what the game page of connection [sid] emits to
    the handler of the same name. *)
Definition deliver (sid : string) (m : Client.GameSent) : Event :=
  match m with
  | Client.send_update_progress code article reported =>
      UpdateProgress sid code article reported
  | Client.send_game_win code path => GameWin sid code path
  end.

(** The clicks of one player, each followed by the handling of what the
    page emitted; [None] when a handler throws. *)
Fixpoint session (sid : string) (s : Server) (p : Client.Page) (titles : list string)
  : option (Server * Client.Page) :=
  match titles with
  | [] => Some (s, p)
  | title :: rest =>
    match run s (deliver sid <$> (Client.handleLinkClick p title).2) with
    | Normal s' _ => session sid s' (Client.handleLinkClick p title).1 rest
    | TypeError => None
    end
  end.

(** The page of connection [sid] is in a multiplayer game of a room that
    is [playing], and the entry of the connection has the clicks, the
    history and the current article of the page. *)
Definition in_sync (s : Server) (sid : string) (p : Client.Page) : Prop :=
  Client.gameMode p = Client.multiplayer ∧
  ∃ room ps g,
    rooms s !! Client.roomId p = Some room ∧ gameState room = playing ∧
    playerStates room !! sid = Some ps ∧
    Client.gameState p = Some g ∧
    clicks ps = Client.clicks g ∧
    history ps = Client.path g ∧
    currentArticle ps = Client.currentArticle g.

(** ** More of the session *)

(** Ann alone in her room. *)
Definition solo : Server :=
  state_of (run init [Connection "A"; CreateRoom "A" "Ann" "R1" 0 0]).

(** The page of the second connection in the lobby of the room. *)
Definition lobby_page : Client.Page :=
  {| Client.gameState := None;
     Client.timeLeft := 180;
     Client.showWinModal := false;
     Client.showLoseModal := false;
     Client.gameMode := Client.multiplayer;
     Client.roomId := "R1";
     Client.lobbyPlayers := [("A", "Ann"); ("B", "Super Dragon")];
     Client.opponents := ∅ |}.

(** The same page when the round from Dog to Cat has started. *)
Definition round_page : Client.Page := Client.newGame lobby_page "Dog" "Cat" 0.

(** * Properties *)

(** ** The adapter *)

Section Adapter.
Implicit Types (a : gmap string (gset string)) (sid pid room : string).

Lemma elem_of_sockets_in_join a sid room pid r :
  pid ∈ sockets_in (socket_join a sid room) r ↔
  pid ∈ sockets_in a r ∨ (r = room ∧ pid = sid).
Proof.
  unfold socket_join, sockets_in.
  destruct (decide (room = r)) as [->|Hne].
  - rewrite lookup_insert_eq. simpl. set_solver.
  - rewrite lookup_insert_ne by done. naive_solver.
Qed.

Lemma elem_of_sockets_in_leave_all a sid pid r :
  pid ∈ sockets_in (leave_all a sid) r ↔ pid ∈ sockets_in a r ∧ pid ≠ sid.
Proof.
  unfold leave_all, sockets_in. rewrite lookup_fmap.
  destruct (a !! r); simpl; set_solver.
Qed.
End Adapter.

(** ** Rosters *)

Lemma roster_is_Some room :
  (∀ pid, pid ∈ players room → is_Some (playerStates room !! pid)) →
  is_Some (roster room).
Proof.
  intros Hall. apply mapM_is_Some, Forall_forall. intros pid Hin. simpl.
  destruct (Hall pid Hin) as [ps ->]. by eexists.
Qed.

Lemma roster_ids room entries : roster room = Some entries → entries.*1 = players room.
Proof.
  unfold roster. generalize (players room) as pids.
  intros pids Hm. apply mapM_Some in Hm.
  induction Hm as [|pid entry l k Hhd Htl IH]; [done|].
  destruct (playerStates room !! pid); by simplify_eq/=.
Qed.

(** The loop of [start_game] resets the entry of every listed player and
    touches no other entry. *)
Lemma reset_member_lookup start states pid k :
  reset_member start states pid !! k =
  if decide (k = pid) then reset_player start <$> states !! k else states !! k.
Proof.
  unfold reset_member. case_decide as Hk; [subst k|].
  - destruct (states !! pid) eqn:Hps; [by rewrite lookup_insert_eq | by rewrite Hps].
  - destruct (states !! pid); [by rewrite lookup_insert_ne | done].
Qed.

Lemma foldl_reset_member_lookup start pids states k :
  foldl (reset_member start) states pids !! k =
  if decide (k ∈ pids) then reset_player start <$> states !! k else states !! k.
Proof.
  revert states. induction pids as [|pid pids IH]; intros states.
  { case_decide as Hin; [by apply not_elem_of_nil in Hin | done]. }
  cbn [foldl]. rewrite IH, reset_member_lookup.
  destruct (decide (k ∈ pids)) as [Hin|Hnin], (decide (k = pid)) as [->|Hne].
  - rewrite decide_True by (apply elem_of_cons; auto). by destruct (states !! pid).
  - by rewrite decide_True by (apply elem_of_cons; auto).
  - by rewrite decide_True by (apply elem_of_cons; auto).
  - rewrite decide_False; [done|]. rewrite elem_of_cons. naive_solver.
Qed.

(** ** The disconnect loop *)

Lemma remove_player_elem_of sid room pid :
  pid ∈ players (remove_player sid room) ↔ pid ≠ sid ∧ pid ∈ players room.
Proof. unfold remove_player; simpl. by rewrite list_elem_of_filter. Qed.

Section DisconnectLoop.
Variables (sid : string) (a : gmap string (gset string)).

Lemma disconnect_room_lookup roomId registry out registry' out' :
  disconnect_room sid a roomId (registry, out) = Some (registry', out') →
  ∀ k, registry' !! k =
       if decide (k = roomId) then registry !! k ≫= leave sid else registry !! k.
Proof.
  intros Hturn k. unfold disconnect_room in Hturn. cbn [fst snd] in Hturn.
  destruct (registry !! roomId) as [room|] eqn:Hroom; cycle 1.
  { simplify_eq. case_decide; subst; [by rewrite Hroom|done]. }
  destruct (decide (sid ∈ players room)) as [Hin|Hnin]; cycle 1.
  { simplify_eq. case_decide; subst; [|done].
    rewrite Hroom. simpl. unfold leave. by rewrite decide_False. }
  destruct (roster (remove_player sid room)) as [remaining|]; [|done].
  cbn [mbind option_bind] in Hturn.
  destruct (decide (length (players (remove_player sid room)) = 0)) as [Hz|Hnz];
    simplify_eq; destruct (decide (k = roomId)) as [->|Hne].
  - rewrite lookup_delete_eq, Hroom. simpl. unfold leave.
    rewrite decide_True by done. by rewrite decide_True.
  - by rewrite lookup_delete_ne.
  - rewrite lookup_insert_eq, Hroom. simpl. unfold leave.
    rewrite decide_True by done. by rewrite decide_False.
  - by rewrite lookup_insert_ne.
Qed.



Lemma disconnect_loop_lookup codes registry out registry' out' :
  NoDup codes →
  disconnect_loop sid a codes (registry, out) = Some (registry', out') →
  ∀ k, registry' !! k =
       if decide (k ∈ codes) then registry !! k ≫= leave sid else registry !! k.
Proof.
  revert registry out. induction codes as [|roomId codes IH]; intros registry out Hnd Hloop k.
  { cbn [disconnect_loop] in Hloop. simplify_eq.
    case_decide as Hin; [by apply not_elem_of_nil in Hin | done]. }
  apply NoDup_cons in Hnd as [Hfresh Hnd]. cbn [disconnect_loop] in Hloop.
  destruct (disconnect_room sid a roomId (registry, out)) as [[registry1 out1]|] eqn:Hturn;
    [|done].
  simpl in Hloop. rewrite (IH _ _ Hnd Hloop k).
  rewrite !(disconnect_room_lookup _ _ _ _ _ Hturn).
  destruct (decide (k = roomId)) as [->|Hne].
  - rewrite decide_False by done. by rewrite decide_True by (apply elem_of_cons; auto).
  - destruct (decide (k ∈ codes)).
    + by rewrite decide_True by (apply elem_of_cons; auto).
    + rewrite decide_False; [done|]. rewrite elem_of_cons. naive_solver.
Qed.

End DisconnectLoop.

(** After a disconnect every room of the registry has been through
    [leave], and the socket has left the adapter. *)
Lemma disconnect_Normal s sid s' out :
  disconnect s sid = Normal s' out →
  (∀ k, rooms s' !! k = rooms s !! k ≫= leave sid) ∧
  adapter s' = leave_all (adapter s) sid.
Proof.
  unfold disconnect. intros Hd.
  destruct (disconnect_loop _ _ _ _) as [[registry out0]|] eqn:Hloop; [|done].
  simplify_eq. split; [|done]. intros k. simpl.
  rewrite (disconnect_loop_lookup _ _ _ _ _ _ _ (NoDup_fst_map_to_list _) Hloop k).
  case_decide as Hin; [done|].
  destruct (rooms s !! k) as [room|] eqn:Hroom; [|done].
  exfalso. apply Hin. apply list_elem_of_fmap. exists (k, room).
  split; [done|]. by apply elem_of_map_to_list.
Qed.


(** ** Invariants of the registry *)


Lemma room_ok_join a sid code roomId room :
  room_ok a roomId room → room_ok (socket_join a sid code) roomId room.
Proof.
  intros [H1 H2 H3 H4]. split; [done| |done|done].
  intros pid Hpid. apply elem_of_sockets_in_join. auto.
Qed.

Lemma consistent_init : consistent init.
Proof. intros roomId room Hroom. simpl in Hroom. by rewrite lookup_empty in Hroom. Qed.

Lemma consistent_set_room s roomId room :
  consistent s → room_ok (adapter s) roomId room → consistent (set_room s roomId room).
Proof.
  intros Hs Hroom k room'. unfold set_room; simpl.
  destruct (decide (roomId = k)) as [->|Hne].
  - rewrite lookup_insert_eq. by intros [= <-].
  - rewrite lookup_insert_ne by done. apply Hs.
Qed.

Lemma connection_consistent s sid s' out :
  consistent s → connection s sid = Normal s' out → consistent s'.
Proof.
  intros Hs [= <- <-] roomId room Hroom. simpl in *. by apply room_ok_join, Hs.
Qed.

Lemma create_room_consistent s sid username roomId r1 r2 s' out :
  consistent s → create_room s sid username roomId r1 r2 = Normal s' out → consistent s'.
Proof.
  intros Hs [= <- <-] k room. simpl.
  destruct (decide (roomId = k)) as [->|Hne].
  - rewrite lookup_insert_eq. intros [= <-]. split; simpl; [| |lia|done].
    + intros pid ->%list_elem_of_singleton. by rewrite lookup_singleton_eq.
    + intros pid ->%list_elem_of_singleton. apply elem_of_sockets_in_join. auto.
  - rewrite lookup_insert_ne by done. intros Hroom. by apply room_ok_join, Hs.
Qed.

Lemma join_room_consistent s sid roomId username r1 r2 s' out :
  consistent s → join_room s sid roomId username r1 r2 = Normal s' out → consistent s'.
Proof.
  intros Hs. unfold join_room.
  destruct (rooms s !! roomId) as [room|] eqn:Hroom; [|by intros [= <- <-]].
  destruct (decide (gameState room ≠ waiting)); [by intros [= <- <-]|].
  destruct (decide (8 ≤ length (players room))) as [|Hlen]; [by intros [= <- <-]|].
  destruct (roster _) as [allPlayers|]; [|done].
  intros [= <- <-] k room'. simpl.
  destruct (Hs _ _ Hroom) as [H1 H2 H3 H4].
  destruct (decide (roomId = k)) as [->|Hne].
  - rewrite lookup_insert_eq. intros [= <-]. split; simpl.
    + intros pid [Hpid| ->%list_elem_of_singleton]%elem_of_app.
      * destruct (decide (sid = pid)) as [->|];
          [by rewrite lookup_insert_eq | rewrite lookup_insert_ne by done; auto].
      * by rewrite lookup_insert_eq.
    + intros pid [Hpid| ->%list_elem_of_singleton]%elem_of_app;
        apply elem_of_sockets_in_join; auto.
    + rewrite length_app. simpl. lia.
    + by destruct (players room).
  - rewrite lookup_insert_ne by done. intros Hroom'. by apply room_ok_join, Hs.
Qed.

Lemma start_game_consistent s sid roomId start target s' out :
  consistent s → start_game s sid roomId start target = Normal s' out → consistent s'.
Proof.
  intros Hs. unfold start_game.
  destruct (rooms s !! roomId) as [room|] eqn:Hroom; [|by intros [= <- <-]].
  destruct (decide (length (players room) < 2)); [by intros [= <- <-]|].
  intros [= <- <-]. apply consistent_set_room; [done|].
  destruct (Hs _ _ Hroom) as [H1 H2 H3 H4]. split; simpl; [|done..].
  intros pid Hpid. rewrite foldl_reset_member_lookup, decide_True by done.
  destruct (H1 pid Hpid) as [ps ->]. by eexists.
Qed.

Lemma update_progress_consistent s sid roomId article reported s' out :
  consistent s → update_progress s sid roomId article reported = Normal s' out →
  consistent s'.
Proof.
  intros Hs. unfold update_progress.
  destruct (rooms s !! roomId) as [room|] eqn:Hroom; [|by intros [= <- <-]].
  destruct (decide (gameState room ≠ playing)); [by intros [= <- <-]|].
  destruct (playerStates room !! sid) as [player|] eqn:Hplayer; [|by intros [= <- <-]].
  intros [= <- <-]. apply consistent_set_room; [done|].
  destruct (Hs _ _ Hroom) as [H1 H2 H3 H4]. split; simpl; [|done..].
  intros pid Hpid. destruct (decide (sid = pid)) as [->|];
    [by rewrite lookup_insert_eq | rewrite lookup_insert_ne by done; auto].
Qed.

Lemma game_win_state s sid roomId path s' out :
  game_win s sid roomId path = Normal s' out → s' = s.
Proof.
  unfold game_win. repeat case_match; by intros [= <- <-] || done.
Qed.

Lemma return_to_lobby_consistent s sid roomId s' out :
  consistent s → return_to_lobby s sid roomId = Normal s' out → consistent s'.
Proof.
  intros Hs. unfold return_to_lobby.
  destruct (rooms s !! roomId) as [room|] eqn:Hroom; [|by intros [= <- <-]].
  intros [= <- <-]. apply consistent_set_room; [done|].
  by destruct (Hs _ _ Hroom).
Qed.

Lemma disconnect_consistent s sid s' out :
  consistent s → disconnect s sid = Normal s' out → consistent s'.
Proof.
  intros Hs [Hrooms Ha]%disconnect_Normal k room' Hroom'.
  rewrite Hrooms in Hroom'. rewrite Ha.
  destruct (rooms s !! k) as [room|] eqn:Hroom; [|done]. simpl in Hroom'.
  destruct (Hs _ _ Hroom) as [H1 H2 H3 H4].
  unfold leave in Hroom'. repeat case_decide; simplify_eq.
  - split.
    + intros pid [_ Hpid]%remove_player_elem_of. simpl. auto.
    + intros pid [Hne Hpid]%remove_player_elem_of.
      apply elem_of_sockets_in_leave_all. auto.
    + simpl. etrans; [apply length_filter|done].
    + intros Hnil. by rewrite Hnil in *.
  - split; [done| |done|done].
    intros pid Hpid. apply elem_of_sockets_in_leave_all. split; [auto|].
    by intros ->.
Qed.

Lemma handle_consistent s e s' out :
  consistent s → handle s e = Normal s' out → consistent s'.
Proof.
  intros Hs. destruct e; simpl.
  - by apply connection_consistent.
  - by apply create_room_consistent.
  - by apply join_room_consistent.
  - by apply start_game_consistent.
  - by apply update_progress_consistent.
  - by intros ->%game_win_state.
  - by apply return_to_lobby_consistent.
  - by apply disconnect_consistent.
Qed.

Lemma reachable_consistent s : reachable s → consistent s.
Proof.
  induction 1 as [|s e s' out _ IH Hstep]; [apply consistent_init|].
  by eapply handle_consistent.
Qed.

Lemma run_reachable events s s' out :
  reachable s → run s events = Normal s' out → reachable s'.
Proof.
  revert s out. induction events as [|e events IH]; intros s out Hs; simpl.
  { by intros [= <- <-]. }
  destruct (handle s e) as [s1 out1|] eqn:Hstep; [|done].
  destruct (run s1 events) as [s2 out2|] eqn:Hrun; [|done].
  intros [= <- <-]. eapply IH; [|done]. by eapply reachable_step.
Qed.

(** ** Starting a round *)

Lemma start_game_Normal s sid roomId start target room :
  rooms s !! roomId = Some room → 2 ≤ length (players room) →
  start_game s sid roomId start target =
    Normal (set_room s roomId (started start target room))
           [emit (io_to s roomId) (game_started start target)].
Proof.
  intros Hroom Hlen. unfold start_game. rewrite Hroom.
  by rewrite decide_False by lia.
Qed.

Lemma started_member start target room pid ps :
  pid ∈ players room → playerStates room !! pid = Some ps →
  playerStates (started start target room) !! pid = Some (reset_player start ps).
Proof.
  intros Hpid Hps. simpl.
  by rewrite foldl_reset_member_lookup, decide_True, Hps.
Qed.

(** ** Claims about the start of a round *)

(** C4. A [start_game] event on a room that lists at least two players,
    whatever the clicks, current article and history its members have:
    the room stored under the code gets the start and the target article
    and the state [playing], the list of players is kept, every listed
    player's entry has clicks 0, the start article as current article and
    the one-element history [[start]], and the one message sent is
    [game_started] with both articles, to an audience that contains every
    listed player. *)
Theorem start_game_resets_every_member s sid roomId start target room :
  reachable s →
  rooms s !! roomId = Some room →
  2 ≤ length (players room) →
  ∃ s' room',
    start_game s sid roomId start target =
      Normal s' [emit (io_to s roomId) (game_started start target)] ∧
    rooms s' !! roomId = Some room' ∧
    startArticle room' = Some start ∧
    targetArticle room' = Some target ∧
    gameState room' = playing ∧
    players room' = players room ∧
    (∀ pid, pid ∈ players room →
       ∃ ps ps', playerStates room !! pid = Some ps ∧
                 playerStates room' !! pid = Some ps' ∧
                 ps_id ps' = ps_id ps ∧ name ps' = name ps ∧
                 clicks ps' = 0%Z ∧ currentArticle ps' = start ∧
                 history ps' = [start]) ∧
    (∀ pid, pid ∈ players room → pid ∈ io_to s roomId).
Proof.
  intros Hs Hroom Hlen.
  destruct (reachable_consistent s Hs roomId room Hroom) as [Hstates Hjoined _ _].
  exists (set_room s roomId (started start target room)), (started start target room).
  split; [by apply start_game_Normal|].
  split; [by unfold set_room; simpl; rewrite lookup_insert_eq|].
  do 4 (split; [done|]). split; [|exact Hjoined].
  intros pid Hpid. destruct (Hstates pid Hpid) as [ps Hps].
  exists ps, (reset_player start ps). split; [done|].
  split; [by apply started_member|done].
Qed.

(** C10. [start_game] does not look at the state of the room: its result is
    the same whatever [gameState] the room has, and on a room that is
    already [playing] and lists at least two players it completes without
    an error, sends only [game_started], leaves the room [playing] with the
    new articles and resets every listed player's clicks, current article
    and history. *)
Theorem start_game_restarts_playing_room s sid roomId start target room :
  reachable s →
  rooms s !! roomId = Some room →
  gameState room = playing →
  2 ≤ length (players room) →
  (∀ g, start_game (set_room s roomId (with_gameState g room)) sid roomId start target =
        start_game s sid roomId start target) ∧
  ∃ s' room',
    start_game s sid roomId start target =
      Normal s' [emit (io_to s roomId) (game_started start target)] ∧
    rooms s' !! roomId = Some room' ∧
    gameState room' = playing ∧
    startArticle room' = Some start ∧
    targetArticle room' = Some target ∧
    (∀ pid, pid ∈ players room →
       ∃ ps', playerStates room' !! pid = Some ps' ∧
              clicks ps' = 0%Z ∧ currentArticle ps' = start ∧
              history ps' = [start]).
Proof.
  intros Hs Hroom Hplaying Hlen. split.
  - intros g.
    rewrite (start_game_Normal s sid roomId start target room Hroom Hlen).
    rewrite (start_game_Normal _ sid roomId start target (with_gameState g room));
      [|by unfold set_room; simpl; rewrite lookup_insert_eq|done].
    unfold set_room, io_to; simpl. by rewrite insert_insert_eq.
  - destruct (reachable_consistent s Hs roomId room Hroom) as [Hstates _ _ _].
    exists (set_room s roomId (started start target room)), (started start target room).
    split; [by apply start_game_Normal|].
    split; [by unfold set_room; simpl; rewrite lookup_insert_eq|].
    do 3 (split; [done|]).
    intros pid Hpid. destruct (Hstates pid Hpid) as [ps Hps].
    exists (reset_player start ps). split; [by apply started_member|done].
Qed.

(** ** One event seen from one room *)

Lemma handle_lookup s e s' out roomId room :
  handle s e = Normal s' out →
  rooms s !! roomId = Some room →
  rooms s' !! roomId = room_after e roomId room.
Proof.
  intros Hstep Hroom. destruct e as
    [sid|sid username code r1 r2|sid code username r1 r2|sid code start target
    |sid code article reported|sid code path|sid code|sid]; simpl in *.
  - unfold connection in Hstep. by simplify_eq.
  - unfold create_room in Hstep. simplify_eq; simpl.
    case_decide; subst; [by rewrite lookup_insert_eq | by rewrite lookup_insert_ne].
  - unfold join_room in Hstep.
    destruct (decide (code = roomId)) as [->|Hne].
    + rewrite Hroom in Hstep.
      destruct (decide (gameState room ≠ waiting)) as [Hg|Hg].
      { simplify_eq. rewrite decide_False by naive_solver. done. }
      destruct (decide (8 ≤ length (players room))).
      { simplify_eq. rewrite decide_False by (intros (_ & _ & ?); lia). done. }
      destruct (roster _); [|done]. simplify_eq; simpl.
      rewrite lookup_insert_eq, decide_True; [done|].
      split; [done|]. split; [by apply dec_stable | lia].
    + rewrite decide_False by naive_solver.
      repeat case_match; simplify_eq; simpl; try done; by rewrite lookup_insert_ne.
  - unfold start_game in Hstep.
    destruct (decide (code = roomId)) as [->|Hne].
    + rewrite Hroom in Hstep. case_decide as Hlen.
      * simplify_eq. by rewrite decide_False by (intros [_ ?]; lia).
      * simplify_eq. unfold set_room; simpl.
        rewrite lookup_insert_eq, decide_True; [done | split; [done|lia]].
    + rewrite decide_False by naive_solver.
      repeat case_match; simplify_eq; unfold set_room; simpl; try done;
        by rewrite lookup_insert_ne.
  - unfold update_progress in Hstep.
    destruct (decide (code = roomId)) as [->|Hne].
    + rewrite Hroom in Hstep.
      destruct (decide (gameState room ≠ playing)) as [Hg|Hg].
      { simplify_eq. by rewrite decide_False by naive_solver. }
      rewrite decide_True by (split; [done | by apply dec_stable]).
      destruct (playerStates room !! sid); simplify_eq; [|done].
      unfold set_room; simpl. by rewrite lookup_insert_eq.
    + rewrite decide_False by naive_solver.
      repeat case_match; simplify_eq; unfold set_room; simpl; try done;
        by rewrite lookup_insert_ne.
  - apply game_win_state in Hstep. by subst.
  - unfold return_to_lobby in Hstep.
    destruct (decide (code = roomId)) as [->|Hne].
    + rewrite Hroom in Hstep. simplify_eq. unfold set_room; simpl.
      by rewrite lookup_insert_eq.
    + repeat case_match; simplify_eq; unfold set_room; simpl; try done;
        by rewrite lookup_insert_ne.
  - apply disconnect_Normal in Hstep as [-> _]. by rewrite Hroom.
Qed.

(** ** Claims about wins, progress and joining *)

Lemma game_win_member s sid roomId path room winner :
  rooms s !! roomId = Some room → gameState room = playing →
  playerStates room !! sid = Some winner →
  game_win s sid roomId path =
    Normal s [emit (io_to s roomId) (player_won sid (name winner) path)].
Proof.
  intros Hroom Hg Hw. unfold game_win. rewrite Hroom, Hw.
  by rewrite decide_False by (by rewrite Hg; intros []).
Qed.


(** C6. An [update_progress] event of a listed player of a room that is
    [playing]: the sender's entry gets the reported article and clicks and
    the article at the end of its history, nothing else of the room
    changes, and the one message sent is [opponent_progress] with the
    sender's id and name and the reported article and clicks, to an
    audience that contains every other listed player and not the sender.
    When no room has the code, or the room is not [playing], the state
    stays as it was and nothing is sent. *)
Theorem update_progress_relays_to_others s sid roomId article reported :
  reachable s →
  (rooms s !! roomId = None →
     update_progress s sid roomId article reported = Normal s []) ∧
  (∀ room, rooms s !! roomId = Some room → gameState room ≠ playing →
     update_progress s sid roomId article reported = Normal s []) ∧
  (∀ room, rooms s !! roomId = Some room → gameState room = playing →
     sid ∈ players room →
     ∃ player player' s' room',
       playerStates room !! sid = Some player ∧
       update_progress s sid roomId article reported =
         Normal s' [emit (socket_to s sid roomId)
                         (opponent_progress sid (name player) article reported)] ∧
       rooms s' !! roomId = Some room' ∧
       (∀ code, code ≠ roomId → rooms s' !! code = rooms s !! code) ∧
       playerStates room' !! sid = Some player' ∧
       ps_id player' = ps_id player ∧ name player' = name player ∧
       currentArticle player' = article ∧ clicks player' = reported ∧
       history player' = history player ++ [article] ∧
       (∀ pid, pid ≠ sid → playerStates room' !! pid = playerStates room !! pid) ∧
       players room' = players room ∧ gameState room' = playing ∧
       (sid ∉ socket_to s sid roomId) ∧
       (∀ pid, pid ∈ players room → pid ≠ sid → pid ∈ socket_to s sid roomId)).
Proof.
  intros Hs. split; [|split].
  - intros Hnone. unfold update_progress. by rewrite Hnone.
  - intros room Hroom Hg. unfold update_progress. rewrite Hroom.
    by rewrite decide_True.
  - intros room Hroom Hg Hsid.
    destruct (reachable_consistent s Hs roomId room Hroom) as [Hstates Hjoined _ _].
    destruct (Hstates sid Hsid) as [player Hplayer].
    exists player, (progressed article reported player).
    eexists _, (with_playerState sid (progressed article reported player) room).
    split; [done|]. split.
    { unfold update_progress. rewrite Hroom, Hplayer.
      rewrite decide_False by (by rewrite Hg; intros []). reflexivity. }
    unfold set_room, socket_to; simpl.
    split; [by rewrite lookup_insert_eq|].
    split; [by intros code Hne; rewrite lookup_insert_ne|].
    split; [by rewrite lookup_insert_eq|].
    do 5 (split; [done|]).
    split; [by intros pid Hne; rewrite lookup_insert_ne|].
    do 2 (split; [done|]).
    split; [set_solver|].
    intros pid Hpid Hne. apply elem_of_difference. split; [by apply Hjoined|].
    by rewrite elem_of_singleton.
Qed.


(** ** Names *)

Lemma random_index_lt (r : Q) (len : nat) :
  (0 <= r)%Q → (r < 1)%Q → 0 < len → random_index r len < len.
Proof.
  intros H0 H1 Hlen. unfold random_index.
  set (n := inject_Z (Z.of_nat len)).
  assert (Hn : (0 < n)%Q).
  { unfold n. rewrite <- (Zlt_Qlt 0). lia. }
  assert (Hlo : (0 <= Qfloor (r * n))%Z).
  { rewrite <- (Qfloor_Z 0). apply Qfloor_resp_le.
    apply Qmult_le_0_compat; [done | by apply Qlt_le_weak]. }
  assert (Hhi : (Qfloor (r * n) < Z.of_nat len)%Z).
  { rewrite Zlt_Qlt. eapply Qle_lt_trans; [apply Qfloor_le|].
    fold n. rewrite <- (Qmult_1_l n) at 2.
    by apply Qmult_lt_compat_r. }
  lia.
Qed.

Lemma generateName_vocabulary (r_adj r_animal : Q) :
  (0 <= r_adj)%Q → (r_adj < 1)%Q → (0 <= r_animal)%Q → (r_animal < 1)%Q →
  ∃ adj animal, adj ∈ ADJECTIVES ∧ animal ∈ ANIMALS ∧
                generateName r_adj r_animal = adj +:+ " " +:+ animal.
Proof.
  intros Ha0 Ha1 Hb0 Hb1. unfold generateName.
  destruct (lookup_lt_is_Some_2 ADJECTIVES (random_index r_adj (length ADJECTIVES)))
    as [adj Hadj]; [apply random_index_lt; simpl; (done || lia)|].
  destruct (lookup_lt_is_Some_2 ANIMALS (random_index r_animal (length ANIMALS)))
    as [animal Hanimal]; [apply random_index_lt; simpl; (done || lia)|].
  exists adj, animal. rewrite Hadj, Hanimal.
  split; [by eapply list_elem_of_lookup_2|].
  split; [by eapply list_elem_of_lookup_2|done].
Qed.

(** A [join_room] that passes the three checks admits the caller. *)
Lemma join_room_admits s sid roomId username r_adj r_animal room :
  consistent s →
  rooms s !! roomId = Some room → gameState room = waiting →
  length (players room) < 8 →
  ∃ s' allPlayers,
    join_room s sid roomId username r_adj r_animal =
      Normal s' [callback sid (join_room_ack roomId allPlayers);
                 emit (io_to s' roomId) (player_joined allPlayers)] ∧
    rooms s' !! roomId =
      Some (admitted sid (or_else username (generateName r_adj r_animal)) room).
Proof.
  intros Hs Hroom Hg Hlen. unfold join_room. rewrite Hroom.
  rewrite decide_False by (by rewrite Hg; intros []).
  rewrite decide_False by lia.
  destruct (Hs _ _ Hroom) as [Hstates _ _ _].
  set (playerName := or_else username (generateName r_adj r_animal)).
  destruct (roster_is_Some (admitted sid playerName room)) as [allPlayers Hall].
  { simpl. intros pid [Hpid| ->%list_elem_of_singleton]%elem_of_app.
    - destruct (decide (sid = pid)) as [->|];
        [by rewrite lookup_insert_eq | rewrite lookup_insert_ne by done; auto].
    - by rewrite lookup_insert_eq. }
  unfold admitted in Hall. rewrite Hall.
  eexists _, allPlayers. split; [done|]. simpl. by rewrite lookup_insert_eq.
Qed.


(** C7, as the code has it.  The name stored for the caller of
    [create_room], and of a [join_room] that is admitted, is the requested
    username as it was sent, white space included, when it is not the empty
    string, and for the empty string a generated name: an adjective, a
    space and an animal, each from its vocabulary of ten words. *)
Theorem stored_name_is_request_or_generated s sid roomId username r_adj r_animal :
  reachable s →
  (0 <= r_adj)%Q → (r_adj < 1)%Q → (0 <= r_animal)%Q → (r_animal < 1)%Q →
  ∃ playerName,
    (username ≠ "" → playerName = username) ∧
    (username = "" →
       ∃ adj animal, adj ∈ ADJECTIVES ∧ animal ∈ ANIMALS ∧
                     playerName = adj +:+ " " +:+ animal) ∧
    length ADJECTIVES = 10 ∧ length ANIMALS = 10 ∧
    (∃ s' out, create_room s sid username roomId r_adj r_animal = Normal s' out ∧
               stored_name s' roomId sid = Some playerName) ∧
    (∀ room, rooms s !! roomId = Some room → gameState room = waiting →
       length (players room) < 8 →
       ∃ s' out, join_room s sid roomId username r_adj r_animal = Normal s' out ∧
                 stored_name s' roomId sid = Some playerName).
Proof.
  intros Hs Ha0 Ha1 Hb0 Hb1.
  exists (or_else username (generateName r_adj r_animal)).
  split; [|split; [|split; [done|split; [done|split]]]].
  - intros Hne. unfold or_else. by rewrite decide_False.
  - intros ->. unfold or_else. rewrite decide_True by done.
    by apply generateName_vocabulary.
  - eexists _, _. split; [reflexivity|].
    unfold stored_name; simpl. rewrite lookup_insert_eq. simpl.
    by rewrite lookup_singleton_eq.
  - intros room Hroom Hg Hlen.
    destruct (join_room_admits s sid roomId username r_adj r_animal room)
      as (s' & allPlayers & Hjoin & Hroom'); [by apply reachable_consistent|done..|].
    eexists _, _. split; [exact Hjoin|].
    unfold stored_name. rewrite Hroom'. simpl. by rewrite lookup_insert_eq.
Qed.

(** ** Clicks *)


(** ** Membership *)

Lemma handle_lookup_None s e s' out roomId :
  handle s e = Normal s' out →
  rooms s !! roomId = None →
  rooms s' !! roomId =
    match e with
    | CreateRoom sid username code r_adj r_animal =>
      if decide (code = roomId)
      then Some (created sid (or_else username (generateName r_adj r_animal)) code)
      else None
    | _ => None
    end.
Proof.
  intros Hstep Hnone. destruct e as
    [sid|sid username code r1 r2|sid code username r1 r2|sid code start target
    |sid code article reported|sid code path|sid code|sid]; simpl in *.
  - unfold connection in Hstep. by simplify_eq.
  - unfold create_room in Hstep. simplify_eq; simpl.
    case_decide; subst; [by rewrite lookup_insert_eq | by rewrite lookup_insert_ne].
  - unfold join_room in Hstep. repeat case_match; simplify_eq; simpl; try done.
    rewrite lookup_insert_ne; [done | congruence].
  - unfold start_game in Hstep.
    repeat case_match; simplify_eq; unfold set_room; simpl; try done.
    rewrite lookup_insert_ne; [done | congruence].
  - unfold update_progress in Hstep.
    repeat case_match; simplify_eq; unfold set_room; simpl; try done.
    rewrite lookup_insert_ne; [done | congruence].
  - apply game_win_state in Hstep. by subst.
  - unfold return_to_lobby in Hstep.
    repeat case_match; simplify_eq; unfold set_room; simpl; try done.
    rewrite lookup_insert_ne; [done | congruence].
  - apply disconnect_Normal in Hstep as [-> _]. by rewrite Hnone.
Qed.

(** A player listed after an event was listed before it, or the event is
    the one that lists it. *)
Lemma handle_member s e s' out code room' sid :
  handle s e = Normal s' out →
  rooms s' !! code = Some room' → sid ∈ players room' →
  (∃ room, rooms s !! code = Some room ∧ sid ∈ players room) ∨ enters e sid code.
Proof.
  intros Hstep Hroom' Hsid.
  destruct (rooms s !! code) as [room|] eqn:Hroom.
  - rewrite (handle_lookup s e s' out code room Hstep Hroom) in Hroom'.
    destruct e; simpl in *; try unfold leave in Hroom';
      repeat case_decide; destruct_and?; simplify_eq/=; eauto.
    + apply list_elem_of_singleton in Hsid. auto.
    + apply elem_of_app in Hsid as [Hsid|Hsid%list_elem_of_singleton]; eauto.
    + case_match; simplify_eq/=; eauto.
    + apply list_elem_of_filter in Hsid as [_ Hsid]. eauto.
  - rewrite (handle_lookup_None s e s' out code Hstep Hroom) in Hroom'.
    destruct e; simpl in *; try done.
    case_decide; simplify_eq/=. apply list_elem_of_singleton in Hsid. auto.
Qed.

Lemma disconnect_in_no_room s sid s' out :
  disconnect s sid = Normal s' out → in_no_room s' sid.
Proof.
  intros [Hrooms _]%disconnect_Normal code room' Hroom'.
  rewrite Hrooms in Hroom'.
  destruct (rooms s !! code) as [room|]; [|done]. simpl in Hroom'.
  unfold leave in Hroom'. repeat case_decide; simplify_eq; [|done].
  rewrite remove_player_elem_of. naive_solver.
Qed.

Lemma handle_one_room_each s e s' out :
  one_room_each s → polite s e → handle s e = Normal s' out → one_room_each s'.
Proof.
  intros Hone Hpolite Hstep sid code1 code2 room1 room2 Hroom1 Hroom2 Hsid1 Hsid2.
  destruct (handle_member s e s' out code1 room1 sid Hstep Hroom1 Hsid1)
    as [(old1 & Hold1 & Hin1)|Henter1],
     (handle_member s e s' out code2 room2 sid Hstep Hroom2 Hsid2)
    as [(old2 & Hold2 & Hin2)|Henter2].
  - by eapply Hone.
  - destruct e; simpl in *; try done; destruct Henter2 as [-> ->];
      by destruct (Hpolite _ _ Hold1).
  - destruct e; simpl in *; try done; destruct Henter1 as [-> ->];
      by destruct (Hpolite _ _ Hold2).
  - destruct e; simpl in *; try done; naive_solver.
Qed.

(** C9, as the code has it.  The handlers never look for the caller in the
    other rooms, so one room per connection is what the clients keep: as
    long as no connection sends [create_room] or [join_room] while a room
    lists it, no connection is listed in two rooms; and a disconnect takes
    the connection off the list of every room. *)
Theorem polite_connections_are_in_one_room s :
  politely_reachable s →
  one_room_each s ∧
  (∀ sid s' out, disconnect s sid = Normal s' out → in_no_room s' sid).
Proof.
  intros Hs. split; [|intros sid s' out; apply disconnect_in_no_room].
  induction Hs as [|s e s' out _ IH Hpolite Hstep].
  - intros sid code1 code2 room1 room2 Hroom1. simpl in Hroom1.
    by rewrite lookup_empty in Hroom1.
  - by eapply handle_one_room_each.
Qed.

(** ** A session *)

Lemma reachable_state_of events :
  completes (run init events) = true → reachable (state_of (run init events)).
Proof.
  destruct (run init events) as [s out|] eqn:Hrun; [|done].
  intros _. simpl. by eapply run_reachable; [apply reachable_init|].
Defined.

Lemma politely_reachable_state_of s events :
  politely_reachable s → politely s events →
  politely_reachable (state_of (run s events)).
Proof.
  revert s. induction events as [|e events IH]; intros s Hs; simpl; [done|].
  intros [Hpolite Hrest].
  destruct (handle s e) as [s1 out1|] eqn:Hstep; [|done].
  specialize (IH s1 (politely_step s e s1 out1 Hs Hpolite Hstep) Hrest).
  by destruct (run s1 events).
Defined.

(** ** What the code does where a claim fails *)

(** Every handler but the disconnect handler keeps the keys of
    [playerStates] equal to the listed players. *)
Lemma handle_keys_are_players s e s' out :
  (∀ sid, e ≠ Disconnect sid) →
  handle s e = Normal s' out →
  map_Forall (λ _, keys_are_players) (rooms s) →
  map_Forall (λ _, keys_are_players) (rooms s').
Proof.
  intros Hnot Hstep Hkeys code room' Hroom'.
  destruct (rooms s !! code) as [room|] eqn:Hroom.
  - rewrite (handle_lookup s e s' out code room Hstep Hroom) in Hroom'.
    specialize (Hkeys code room Hroom). unfold keys_are_players in *. simpl in *.
    destruct e as
      [sid|sid username code' r1 r2|sid code' username r1 r2|sid code' start target
      |sid code' article reported|sid code' path|sid code'|sid]; simpl in Hroom'.
    + by simplify_eq.
    + case_decide; simplify_eq/=; [|done].
      rewrite dom_singleton_L. set_solver.
    + case_decide; simplify_eq/=; [|done].
      rewrite dom_insert_L, list_to_set_app_L. set_solver.
    + case_decide; simplify_eq/=; [|done].
      rewrite <- Hkeys. apply set_eq. intros k.
      rewrite !elem_of_dom, foldl_reset_member_lookup.
      case_decide; [by rewrite fmap_is_Some|done].
    + case_decide; [|by simplify_eq].
      destruct (playerStates room !! sid) as [player|] eqn:Hplayer; simplify_eq/=;
        [|done].
      rewrite dom_insert_L, <- Hkeys.
      assert (sid ∈ dom (playerStates room)) by (apply elem_of_dom; by eexists).
      set_solver.
    + by simplify_eq.
    + case_decide; by simplify_eq/=.
    + by destruct (Hnot sid).
  - rewrite (handle_lookup_None s e s' out code Hstep Hroom) in Hroom'.
    destruct e; simpl in Hroom'; try done.
    case_decide; simplify_eq/=. unfold keys_are_players; simpl.
    rewrite dom_singleton_L. set_solver.
Qed.

(** C1.  The disconnect handler takes the socket off [players] and leaves
    its entry in [playerStates]: after Ann created a room, a second
    connection joined and disconnected, the room lists Ann alone and still
    has the entry of the second connection, so the keys of [playerStates]
    are not the listed players. *)
Example disconnect_keeps_playerStates_entry :
  ∃ s out room,
    run init (lobby_events ++ [Disconnect "B"]) = Normal s out ∧
    rooms s !! "R1" = Some room ∧
    players room = ["A"] ∧
    is_Some (playerStates room !! "B") ∧
    ¬ keys_are_players room.
Proof.
  set (s := state_of (run init (lobby_events ++ [Disconnect "B"]))).
  set (room := room_of s "R1").
  assert (Hplayers : players room = ["A"]) by reflexivity.
  assert (Hentry : is_Some (playerStates room !! "B")) by (by eexists).
  exists s. eexists. exists room.
  split; [reflexivity|]. split; [reflexivity|].
  split; [exact Hplayers|]. split; [exact Hentry|].
  intros Hdom. unfold keys_are_players in Hdom. apply elem_of_dom in Hentry.
  rewrite Hdom, Hplayers in Hentry. set_solver.
Qed.

Lemma game_win_outsider s sid roomId path room :
  rooms s !! roomId = Some room → gameState room = playing →
  playerStates room !! sid = None →
  game_win s sid roomId path = TypeError.
Proof.
  intros Hroom Hg Hnone. unfold game_win. rewrite Hroom, Hnone.
  by rewrite decide_False by (by rewrite Hg; intros []).
Qed.

(** C3.  In a round of Ann and a second connection, a third connection
    that never joined the room sends events naming it: its
    [update_progress] changes nothing and sends nothing, and its
    [game_win] throws, reading the name of an entry that is not there. *)
Example game_win_from_outsider_throws :
  ∃ s out room,
    run init (round_events ++ [Connection "C"]) = Normal s out ∧
    rooms s !! "R1" = Some room ∧
    gameState room = playing ∧
    playerStates room !! "C" = None ∧
    update_progress s "C" "R1" "Cat" 1 = Normal s [] ∧
    game_win s "C" "R1" ["Dog"; "Cat"] = TypeError.
Proof.
  set (s := state_of (run init (round_events ++ [Connection "C"]))).
  set (room := room_of s "R1").
  assert (Hroom : rooms s !! "R1" = Some room) by (vm_compute; reflexivity).
  assert (Hg : gameState room = playing) by (vm_compute; reflexivity).
  assert (Hnone : playerStates room !! "C" = None) by (vm_compute; reflexivity).
  exists s, (match run init (round_events ++ [Connection "C"]) with
             | Normal _ out => out | TypeError => [] end), room.
  split; [vm_compute; reflexivity|].
  do 3 (split; [done|]). split.
  - unfold update_progress. rewrite Hroom, Hnone.
    by rewrite decide_False by (by rewrite Hg; intros []).
  - by apply game_win_outsider with room.
Qed.

(** ** Counterexamples *)

(** C7.  A username with white space around it is stored as it was sent,
    and one of white space only is stored too, where the name resolution of
    the specification gives the trimmed name and a generated one. *)
Lemma username_is_stored_untrimmed :
  (∃ s out, create_room init "A" " Ann " "R1" 0 0 = Normal s out ∧
            stored_name s "R1" "A" = Some " Ann " ∧
            spec_resolveName " Ann " (generateName 0 0) = "Ann" ∧
            stored_name s "R1" "A" ≠ Some (spec_resolveName " Ann " (generateName 0 0))) ∧
  (∃ s out, join_room lobby "C" "R1" "  " 0 0 = Normal s out ∧
            stored_name s "R1" "C" = Some "  " ∧
            spec_resolveName "  " (generateName 0 0) = "Neon Fox" ∧
            stored_name s "R1" "C" ≠ Some (spec_resolveName "  " (generateName 0 0))).
Proof.
  split.
  - eexists _, _. split; [reflexivity|]. repeat split; by vm_compute.
  - exists (state_of (join_room lobby "C" "R1" "  " 0 0)).
    exists (match join_room lobby "C" "R1" "  " 0 0 with
            | Normal _ out => out | TypeError => [] end).
    split; [vm_compute; reflexivity|]. repeat split; by vm_compute.
Qed.


(** C9.  One connection creates two rooms and is listed in both. *)
Lemma connection_in_two_rooms :
  ∃ s out room1 room2,
    run init [Connection "A"; CreateRoom "A" "Ann" "R1" 0 0;
              CreateRoom "A" "Ann" "R2" 0 0] = Normal s out ∧
    rooms s !! "R1" = Some room1 ∧ rooms s !! "R2" = Some room2 ∧
    "A" ∈ players room1 ∧ "A" ∈ players room2 ∧
    ¬ one_room_each s.
Proof.
  set (c := run init [Connection "A"; CreateRoom "A" "Ann" "R1" 0 0;
                      CreateRoom "A" "Ann" "R2" 0 0]).
  assert (H1 : rooms (state_of c) !! "R1" = Some (room_of (state_of c) "R1"))
    by (by vm_compute).
  assert (H2 : rooms (state_of c) !! "R2" = Some (room_of (state_of c) "R2"))
    by (by vm_compute).
  assert (Hin1 : "A" ∈ players (room_of (state_of c) "R1"))
    by (apply (bool_decide_unpack _); by vm_compute).
  assert (Hin2 : "A" ∈ players (room_of (state_of c) "R2"))
    by (apply (bool_decide_unpack _); by vm_compute).
  exists (state_of c), (match c with Normal _ out => out | TypeError => [] end).
  exists (room_of (state_of c) "R1"), (room_of (state_of c) "R2").
  split; [by vm_compute|]. do 4 (split; [done|]).
  intros Hone. by specialize (Hone "A" "R1" "R2" _ _ H1 H2 Hin1 Hin2).
Qed.

(** ** The theorems on the session *)

Lemma reachable_lobby : reachable lobby.
Proof. apply reachable_state_of. vm_compute. reflexivity. Defined.

Lemma reachable_round : reachable round.
Proof. apply reachable_state_of. vm_compute. reflexivity. Defined.


Lemma start_game_resets_every_member_witness :
  reachable lobby ∧
  rooms lobby !! "R1" = Some (room_of lobby "R1") ∧
  2 ≤ length (players (room_of lobby "R1")) ∧
  ∃ s' room',
    start_game lobby "A" "R1" "Dog" "Cat" =
      Normal s' [emit (io_to lobby "R1") (game_started "Dog" "Cat")] ∧
    rooms s' !! "R1" = Some room' ∧
    gameState room' = playing ∧
    (∀ pid, pid ∈ players (room_of lobby "R1") →
       ∃ ps', playerStates room' !! pid = Some ps' ∧ clicks ps' = 0%Z ∧
              currentArticle ps' = "Dog" ∧ history ps' = ["Dog"]).
Proof.
  assert (Hroom : rooms lobby !! "R1" = Some (room_of lobby "R1"))
    by (vm_compute; reflexivity).
  assert (Hlen : 2 ≤ length (players (room_of lobby "R1")))
    by (vm_compute; lia).
  do 3 (split; [done || exact reachable_lobby|]).
  destruct (start_game_resets_every_member lobby "A" "R1" "Dog" "Cat" _
              reachable_lobby Hroom Hlen)
    as (s' & room' & Hstart & Hroom' & _ & _ & Hg & _ & Hreset & _).
  exists s', room'. do 3 (split; [done|]).
  intros pid Hpid. destruct (Hreset pid Hpid) as (ps & ps' & _ & Hps' & _ & _ & H).
  by exists ps'.
Defined.

Lemma start_game_restarts_playing_room_witness :
  reachable round ∧
  rooms round !! "R1" = Some (room_of round "R1") ∧
  gameState (room_of round "R1") = playing ∧
  2 ≤ length (players (room_of round "R1")) ∧
  ∃ s' room',
    start_game round "B" "R1" "Sun" "Moon" =
      Normal s' [emit (io_to round "R1") (game_started "Sun" "Moon")] ∧
    rooms s' !! "R1" = Some room' ∧
    gameState room' = playing ∧
    startArticle room' = Some "Sun" ∧
    targetArticle room' = Some "Moon".
Proof.
  assert (Hroom : rooms round !! "R1" = Some (room_of round "R1"))
    by (vm_compute; reflexivity).
  assert (Hg : gameState (room_of round "R1") = playing)
    by (vm_compute; reflexivity).
  assert (Hlen : 2 ≤ length (players (room_of round "R1")))
    by (vm_compute; lia).
  do 4 (split; [done || exact reachable_round|]).
  destruct (start_game_restarts_playing_room round "B" "R1" "Sun" "Moon" _
              reachable_round Hroom Hg Hlen)
    as (_ & s' & room' & Hstart & Hroom' & Hg' & Hs & Ht & _).
  by exists s', room'.
Defined.


Lemma update_progress_relays_to_others_witness :
  reachable round ∧
  update_progress round "B" "R9" "Cat" 1 = Normal round [] ∧
  update_progress lobby "B" "R1" "Cat" 1 = Normal lobby [] ∧
  ∃ player s',
    playerStates (room_of round "R1") !! "B" = Some player ∧
    update_progress round "B" "R1" "Cat" 1 =
      Normal s' [emit (socket_to round "B" "R1")
                      (opponent_progress "B" (name player) "Cat" 1)] ∧
    stored_clicks s' "R1" "B" = Some 1%Z ∧
    ("B" ∉ socket_to round "B" "R1") ∧
    "A" ∈ socket_to round "B" "R1".
Proof.
  assert (Hnone : rooms round !! "R9" = None) by (vm_compute; reflexivity).
  assert (Hlobby : rooms lobby !! "R1" = Some (room_of lobby "R1"))
    by (vm_compute; reflexivity).
  assert (Hwaiting : gameState (room_of lobby "R1") ≠ playing)
    by (vm_compute; discriminate).
  assert (Hroom : rooms round !! "R1" = Some (room_of round "R1"))
    by (vm_compute; reflexivity).
  assert (Hg : gameState (room_of round "R1") = playing)
    by (vm_compute; reflexivity).
  assert (HinB : "B" ∈ players (room_of round "R1"))
    by (apply (bool_decide_unpack _); vm_compute; exact I).
  assert (HinA : "A" ∈ players (room_of round "R1"))
    by (apply (bool_decide_unpack _); vm_compute; exact I).
  split; [exact reachable_round|].
  split; [exact (proj1 (update_progress_relays_to_others round "B" "R9" "Cat" 1
                          reachable_round) Hnone)|].
  split; [exact (proj1 (proj2 (update_progress_relays_to_others lobby "B" "R1" "Cat" 1
                                 reachable_lobby)) _ Hlobby Hwaiting)|].
  destruct (proj2 (proj2 (update_progress_relays_to_others round "B" "R1" "Cat" 1
                            reachable_round)) _ Hroom Hg HinB)
    as (player & player' & s' & room' & Hplayer & Hupd & Hroom' & _ & Hplayer' &
        _ & _ & _ & Hclicks & _ & _ & _ & _ & Hnot & Hothers).
  exists player, s'. do 2 (split; [done|]).
  split; [by unfold stored_clicks; rewrite Hroom'; simpl; rewrite Hplayer'; simpl;
             rewrite Hclicks|].
  split; [done|]. by apply Hothers.
Defined.


Lemma stored_name_is_request_or_generated_witness :
  reachable init ∧
  (0 <= 3 # 10)%Q ∧ (3 # 10 < 1)%Q ∧ (0 <= 99 # 100)%Q ∧ (99 # 100 < 1)%Q ∧
  ∃ playerName,
    (∃ adj animal, adj ∈ ADJECTIVES ∧ animal ∈ ANIMALS ∧
                   playerName = adj +:+ " " +:+ animal) ∧
    (∃ s' out, create_room init "A" "" "R1" (3 # 10) (99 # 100) = Normal s' out ∧
               stored_name s' "R1" "A" = Some playerName).
Proof.
  assert (Ha0 : (0 <= 3 # 10)%Q) by (unfold Qle; simpl; lia).
  assert (Ha1 : (3 # 10 < 1)%Q) by (unfold Qlt; simpl; lia).
  assert (Hb0 : (0 <= 99 # 100)%Q) by (unfold Qle; simpl; lia).
  assert (Hb1 : (99 # 100 < 1)%Q) by (unfold Qlt; simpl; lia).
  do 5 (split; [done || exact reachable_init|]).
  destruct (stored_name_is_request_or_generated init "A" "R1" "" (3 # 10) (99 # 100)
              reachable_init Ha0 Ha1 Hb0 Hb1)
    as (playerName & _ & Hgen & _ & _ & Hcreate & _).
  exists playerName. split; [by apply Hgen | exact Hcreate].
Defined.


Lemma polite_connections_are_in_one_room_witness :
  politely_reachable lobby ∧ one_room_each lobby ∧
  in_no_room (state_of (disconnect lobby "B")) "B".
Proof.
  assert (Hlobby : politely_reachable lobby).
  { apply (politely_reachable_state_of init lobby_events politely_init).
    apply (bool_decide_unpack _). vm_compute. exact I. }
  assert (Hleave : disconnect lobby "B" =
            Normal (state_of (disconnect lobby "B"))
                   (match disconnect lobby "B" with
                    | Normal _ out => out | TypeError => [] end))
    by (vm_compute; reflexivity).
  destruct (polite_connections_are_in_one_room lobby Hlobby) as [Hone Hgone].
  split; [exact Hlobby|]. split; [exact Hone|]. exact (Hgone "B" _ _ Hleave).
Defined.

(** * Further properties of the socket module *)

(** What the room list of a payload holds: each listed player with the
    name of its entry, in the order of [players]. *)
Lemma roster_entries room entries :
  roster room = Some entries →
  Forall2 (λ pid entry, ∃ ps, playerStates room !! pid = Some ps ∧ entry = (pid, name ps))
          (players room) entries.
Proof.
  unfold roster. intros Hm. apply mapM_Some in Hm.
  eapply Forall2_impl; [exact Hm|]. simpl. intros pid entry Hentry.
  destruct (playerStates room !! pid) as [ps|]; simplify_eq/=. by exists ps.
Qed.

(** A property of rooms that holds of a room as [create_room] builds it and
    that every handler keeps holds of every registered room. *)
Lemma reachable_rooms_ind (P : string → Room → Prop) :
  (∀ sid playerName code, P code (created sid playerName code)) →
  (∀ e code room room', P code room → room_after e code room = Some room' → P code room') →
  ∀ s, reachable s → ∀ code room, rooms s !! code = Some room → P code room.
Proof.
  intros Hcreated Hkept s Hs.
  induction Hs as [|s e s' out _ IH Hstep]; intros code room' Hroom'.
  { simpl in Hroom'. by rewrite lookup_empty in Hroom'. }
  destruct (rooms s !! code) as [room|] eqn:Hroom.
  - rewrite (handle_lookup s e s' out code room Hstep Hroom) in Hroom'.
    by eapply Hkept; [apply (IH code room)|].
  - rewrite (handle_lookup_None s e s' out code Hstep Hroom) in Hroom'.
    destruct e; simpl in Hroom'; try done.
    case_decide; simplify_eq. apply Hcreated.
Qed.

(** ** Invariants of registered rooms *)

(** X1. No room stays registered without a player: every registered room
    lists at least one connection. *)
Theorem registered_rooms_list_a_player s code room :
  reachable s → rooms s !! code = Some room → 1 ≤ length (players room).
Proof.
  intros Hs Hroom.
  destruct (reachable_consistent s Hs code room Hroom) as [_ _ _ Hne].
  destruct (players room); [done | simpl; lia].
Qed.

(** X2. No handler sets the state [finished]: every registered room is
    [waiting] or [playing]. *)
Theorem gameState_is_never_finished s code room :
  reachable s → rooms s !! code = Some room → gameState room ≠ finished.
Proof.
  intros Hs. revert code room.
  apply (reachable_rooms_ind (λ _ room, gameState room ≠ finished)); [done| |done].
  intros e code room room' Hroom Hafter.
  destruct e; simpl in Hafter; try unfold leave in Hafter;
    repeat case_decide; simplify_eq/=; try done.
  case_match; by simplify_eq/=.
Qed.

(** X3. A registered room carries the code it is registered under as its
    [id], and every entry of its [playerStates] carries its key as [id]. *)
Theorem ids_are_the_keys s code room :
  reachable s → rooms s !! code = Some room → ids_match code room.
Proof.
  intros Hs. revert code room. apply reachable_rooms_ind; [| |done].
  - intros sid playerName code. split; [done|]. simpl. intros pid ps.
    rewrite lookup_singleton_Some. by intros [<- <-].
  - intros e code room room' [Hid Hps] Hafter.
    destruct e; simpl in Hafter; try unfold leave in Hafter;
      repeat case_decide; destruct_and?; simplify_eq/=; try done.
    + split; [done|]. simpl. intros pid ps.
      rewrite lookup_singleton_Some. by intros [<- <-].
    + split; [done|]. simpl. intros pid ps.
      rewrite lookup_insert_Some. intros [[<- <-]|[_ Hold]]; [done|by eapply Hps].
    + split; [done|]. simpl. intros pid ps.
      rewrite foldl_reset_member_lookup. case_decide; [|by apply Hps].
      destruct (playerStates room !! pid) as [ps0|] eqn:Hps0; [|done].
      intros [= <-]. simpl. by eapply Hps.
    + case_match eqn:Hplayer; simplify_eq/=; [|done].
      split; [done|]. simpl. intros pid ps.
      rewrite lookup_insert_Some. intros [[<- <-]|[_ Hold]]; [|by eapply Hps].
      simpl. by eapply Hps.
Qed.

(** X4. In a room that is [playing] the start and the target article are
    set, and the history of every listed player begins with the start
    article of the round and ends with the player's current article. *)
Theorem histories_span_the_round s code room :
  reachable s → rooms s !! code = Some room → round_histories room.
Proof.
  intros Hs. revert code room.
  apply (reachable_rooms_ind (λ _, round_histories)); [done| |done].
  intros e code room room' Hinv Hafter.
  destruct e as
    [sid|sid username code' r1 r2|sid code' username r1 r2|sid code' start target
    |sid code' article reported|sid code' path|sid code'|sid]; simpl in Hafter.
  - by simplify_eq.
  - case_decide; by simplify_eq.
  - case_decide as Hc; simplify_eq; [|done].
    destruct Hc as (_ & Hg & _). intros Hg'. simpl in Hg'. congruence.
  - case_decide; simplify_eq; [|done].
    intros _. exists start, target. do 2 (split; [done|]).
    intros pid ps Hpid. simpl in *.
    rewrite foldl_reset_member_lookup, decide_True by done.
    destruct (playerStates room !! pid) as [ps0|]; [|done].
    intros [= <-]. by exists [].
  - case_decide as Hc; [|by simplify_eq]. destruct Hc as [-> Hg].
    destruct (Hinv Hg) as (start & target & Hstart & Htarget & Hall).
    destruct (playerStates room !! sid) as [player|] eqn:Hplayer; simplify_eq;
      [|by intros _; exists start, target].
    intros _. exists start, target. do 2 (split; [done|]).
    intros pid ps Hpid. simpl in *. rewrite lookup_insert_Some.
    intros [[<- <-]|[_ Hold]]; [|by eapply Hall].
    destruct (Hall sid player Hpid Hplayer) as (rest & Hhist & _).
    exists (rest ++ [article]). simpl. rewrite Hhist. split; [done|].
    by rewrite last_snoc.
  - by simplify_eq.
  - case_decide; by simplify_eq.
  - unfold leave in Hafter. repeat case_decide; simplify_eq; [|done].
    intros Hg. destruct (Hinv Hg) as (start & target & Hstart & Htarget & Hall).
    exists start, target. do 2 (split; [done|]).
    intros pid ps [_ Hpid]%remove_player_elem_of. by apply Hall.
Qed.

(** ** Disconnecting *)




Lemma filter_others_id (sid : string) (l : list string) :
  sid ∉ l → filter (λ pid, pid ≠ sid) l = l.
Proof.
  induction l as [|pid l IH]; [done|].
  rewrite not_elem_of_cons. intros [Hne Hnot].
  rewrite filter_cons, decide_True by done. by rewrite IH.
Qed.


(** X6. A disconnect changes nothing of a room but its list of players: a
    room that stays registered has the players it had without the socket,
    in the same order, and the state, articles and entries it had, the
    entry of the socket included; a room that does not list the socket is
    left as it was. *)
Theorem disconnect_only_shortens_players s sid s' out code room :
  disconnect s sid = Normal s' out →
  rooms s !! code = Some room →
  (sid ∉ players room → rooms s' !! code = Some room) ∧
  ∀ room', rooms s' !! code = Some room' →
    players room' = filter (λ pid, pid ≠ sid) (players room) ∧
    gameState room' = gameState room ∧
    startArticle room' = startArticle room ∧
    targetArticle room' = targetArticle room ∧
    playerStates room' = playerStates room.
Proof.
  intros [Hrooms _]%disconnect_Normal Hroom. rewrite Hrooms, Hroom. simpl.
  unfold leave. split.
  - intros Hnot. by rewrite decide_False.
  - intros room' Hroom'. repeat case_decide; simplify_eq; [done|].
    split; [|done]. symmetry. by apply filter_others_id.
Qed.


(** ** Lobby and round *)


(** X9. A [join_room] on a [waiting] room that lists fewer than eight
    players is admitted: the caller is put at the end of the list with a
    new entry (no clicks, no article, empty history), the other entries
    and the state stay, and the acknowledgement and the [player_joined]
    message carry the same list, the listed players in order with the
    caller last; the audience of [player_joined] contains the caller and
    every player listed before. *)
Theorem join_room_admits_and_announces s sid code username r_adj r_animal room :
  reachable s →
  rooms s !! code = Some room →
  gameState room = waiting →
  length (players room) < 8 →
  ∃ s' room' entries playerName,
    join_room s sid code username r_adj r_animal =
      Normal s' [callback sid (join_room_ack code entries);
                 emit (io_to s' code) (player_joined entries)] ∧
    rooms s' !! code = Some room' ∧
    gameState room' = waiting ∧
    players room' = players room ++ [sid] ∧
    playerStates room' !! sid =
      Some {| ps_id := sid; name := playerName; clicks := 0%Z;
              currentArticle := ""; history := [] |} ∧
    (∀ pid, pid ≠ sid → playerStates room' !! pid = playerStates room !! pid) ∧
    entries.*1 = players room ++ [sid] ∧
    last entries = Some (sid, playerName) ∧
    (∀ pid, pid ∈ players room → pid ∈ io_to s' code) ∧
    sid ∈ io_to s' code.
Proof.
  intros Hs Hroom Hg Hlen.
  pose proof (reachable_consistent s Hs) as Hcons.
  destruct (join_room_admits s sid code username r_adj r_animal room Hcons Hroom Hg Hlen)
    as (s' & entries & Hjoin & Hroom').
  set (playerName := or_else username (generateName r_adj r_animal)) in *.
  assert (Hroster : roster (admitted sid playerName room) = Some entries).
  { unfold join_room in Hjoin. rewrite Hroom in Hjoin.
    rewrite decide_False in Hjoin by (by rewrite Hg; intros []).
    rewrite decide_False in Hjoin by lia.
    fold playerName in Hjoin. fold (admitted sid playerName room) in Hjoin.
    destruct (roster (admitted sid playerName room)); by simplify_eq. }
  assert (Hs' : reachable s')
    by (by eapply (reachable_step s (JoinRoom sid code username r_adj r_animal))).
  destruct (reachable_consistent s' Hs' code _ Hroom') as [_ Hjoined _ _].
  exists s', (admitted sid playerName room), entries, playerName.
  split; [done|]. split; [done|]. split; [done|]. split; [done|].
  split; [by simpl; rewrite lookup_insert_eq|].
  split; [by intros pid Hne; simpl; rewrite lookup_insert_ne|].
  split; [by rewrite (roster_ids _ _ Hroster)|].
  split.
  { apply roster_entries in Hroster. simpl in Hroster.
    apply Forall2_app_inv_l in Hroster as (before & new & _ & Hnew & ->).
    apply Forall2_cons_inv_l in Hnew as (entry & rest & (ps & Hps & ->) & Hnil & ->).
    apply Forall2_nil_inv_l in Hnil as ->.
    rewrite lookup_insert_eq in Hps. simplify_eq. by rewrite last_snoc. }
  split.
  - intros pid Hpid. apply Hjoined. simpl. apply elem_of_app. auto.
  - apply Hjoined. simpl. apply elem_of_app. right. by apply list_elem_of_singleton.
Qed.

(** X10. A handler that is given a room code changes no room registered
    under another code: but for a disconnect, the rooms under every code
    other than the one the event carries are what they were. *)
Theorem handlers_touch_only_the_named_room s e s' out code :
  handle s e = Normal s' out →
  (∀ sid, e ≠ Disconnect sid) →
  event_code e ≠ Some code →
  rooms s' !! code = rooms s !! code.
Proof.
  intros Hstep Hnot Hcode.
  destruct (rooms s !! code) as [room|] eqn:Hroom.
  - rewrite (handle_lookup s e s' out code room Hstep Hroom).
    destruct e; simpl in *; try done;
      try (rewrite decide_False; [done | naive_solver]).
    by destruct (Hnot sid).
  - rewrite (handle_lookup_None s e s' out code Hstep Hroom).
    destruct e; simpl in *; try done.
    rewrite decide_False; [done | naive_solver].
Qed.


(** X12. A room is [playing] after an event only if it was [playing]
    before it or the event is a [start_game] on the room while it lists at
    least two players. *)
Theorem playing_only_through_start_game s e s' out code room' :
  handle s e = Normal s' out →
  rooms s' !! code = Some room' →
  gameState room' = playing →
  (∃ room, rooms s !! code = Some room ∧ gameState room = playing) ∨
  (∃ sid start target room,
     e = StartGame sid code start target ∧ rooms s !! code = Some room ∧
     2 ≤ length (players room)).
Proof.
  intros Hstep Hroom' Hg'.
  destruct (rooms s !! code) as [room|] eqn:Hroom.
  - rewrite (handle_lookup s e s' out code room Hstep Hroom) in Hroom'.
    destruct e; simpl in Hroom'; try unfold leave in Hroom';
      repeat case_decide; destruct_and?; simplify_eq/=; eauto 10.
  - rewrite (handle_lookup_None s e s' out code Hstep Hroom) in Hroom'.
    destruct e; simpl in Hroom'; try done. by case_decide; simplify_eq/=.
Qed.

(** X13. The [update_progress] events of a connection with an entry in a
    [playing] room, run one after the other: each sends one message; at
    the end the history of the entry is the one before with the reported
    articles appended in order, its current article and clicks are the
    last reported ones, its name is kept, and the room is still [playing]
    with the same players. *)
Theorem progress_reports_accumulate reports : ∀ s sid code room ps,
  rooms s !! code = Some room →
  gameState room = playing →
  playerStates room !! sid = Some ps →
  ∃ s' outs room' ps',
    run s (progress_events sid code reports) = Normal s' outs ∧
    length outs = length reports ∧
    rooms s' !! code = Some room' ∧
    gameState room' = playing ∧
    players room' = players room ∧
    playerStates room' !! sid = Some ps' ∧
    name ps' = name ps ∧
    history ps' = history ps ++ reports.*1 ∧
    currentArticle ps' = default (currentArticle ps) (last reports.*1) ∧
    clicks ps' = default (clicks ps) (last reports.*2).
Proof.
  induction reports as [|[article reported] reports IH];
    intros s sid code room ps Hroom Hg Hps.
  { exists s, [], room, ps. simpl. by rewrite app_nil_r. }
  set (ps1 := progressed article reported ps).
  set (room1 := with_playerState sid ps1 room).
  assert (Hstep : update_progress s sid code article reported =
            Normal (set_room s code room1)
                   [emit (socket_to s sid code)
                         (opponent_progress sid (name ps) article reported)]).
  { unfold update_progress. rewrite Hroom, Hps.
    by rewrite decide_False by (by rewrite Hg; intros []). }
  destruct (IH (set_room s code room1) sid code room1 ps1)
    as (s' & outs & room' & ps' & Hrun & Hlen & Hroom' & Hg' & Hplayers & Hps' &
        Hname & Hhist & Hcur & Hclicks).
  { unfold set_room; simpl. by rewrite lookup_insert_eq. }
  { done. }
  { simpl. by rewrite lookup_insert_eq. }
  exists s', (emit (socket_to s sid code)
                   (opponent_progress sid (name ps) article reported) :: outs),
         room', ps'.
  split.
  { unfold progress_events in *. rewrite fmap_cons. cbn [run handle fst snd].
    by rewrite Hstep, Hrun. }
  split; [simpl; by rewrite Hlen|].
  do 5 (split; [done|]). split; [|split].
  - rewrite Hhist. simpl. by rewrite <- app_assoc.
  - rewrite Hcur. rewrite !fmap_cons. simpl.
    rewrite last_cons. by destruct (last reports.*1).
  - rewrite Hclicks. rewrite !fmap_cons. simpl.
    rewrite last_cons. by destruct (last reports.*2).
Qed.

Lemma generated_name_is_not_empty (x y : string) : x +:+ " " +:+ y ≠ "".
Proof. by destruct x. Qed.

(** X14. The name stored for the caller of [create_room], and of a
    [join_room] that is admitted, is never the empty string, whatever the
    username sent and whatever the random draws. *)
Theorem stored_name_is_never_empty s sid code username r_adj r_animal :
  reachable s →
  (∃ s' out playerName,
     create_room s sid username code r_adj r_animal = Normal s' out ∧
     stored_name s' code sid = Some playerName ∧ playerName ≠ "") ∧
  (∀ room, rooms s !! code = Some room → gameState room = waiting →
     length (players room) < 8 →
     ∃ s' out playerName,
       join_room s sid code username r_adj r_animal = Normal s' out ∧
       stored_name s' code sid = Some playerName ∧ playerName ≠ "").
Proof.
  intros Hs.
  assert (Hname : or_else username (generateName r_adj r_animal) ≠ "").
  { unfold or_else. case_decide; [|done]. apply generated_name_is_not_empty. }
  split.
  - eexists _, _, _. split; [reflexivity|]. split; [|exact Hname].
    unfold stored_name; simpl. rewrite lookup_insert_eq. simpl.
    by rewrite lookup_singleton_eq.
  - intros room Hroom Hg Hlen.
    destruct (join_room_admits s sid code username r_adj r_animal room)
      as (s' & entries & Hjoin & Hroom'); [by apply reachable_consistent|done..|].
    eexists _, _, _. split; [exact Hjoin|]. split; [|exact Hname].
    unfold stored_name. rewrite Hroom'. simpl. by rewrite lookup_insert_eq.
Qed.

(** * The HTTP routes *)

Lemma startsWith_app (prefix rest : string) :
  Routes.startsWith (prefix +:+ rest) prefix = true.
Proof.
  induction prefix as [|c prefix IH]; [done|]. simpl.
  by rewrite Ascii.eqb_refl, IH.
Qed.

(** A string that starts with [prefix] has the characters of [prefix]. *)
Lemma startsWith_get (s prefix : string) :
  Routes.startsWith s prefix = true →
  ∀ i c, String.get i prefix = Some c → String.get i s = Some c.
Proof.
  revert s. induction prefix as [|p prefix IH]; intros s Hs i c Hget; [done|].
  destruct s as [|c' s]; [done|]. simpl in Hs.
  apply andb_true_iff in Hs as [Hc Hs]. apply Ascii.eqb_eq in Hc as ->.
  destruct i as [|i]; [done|]. simpl in *. by apply IH.
Qed.

Lemma replace_spaces_get (s : string) i :
  String.get i (Routes.replace_spaces s) =
  (λ c, if Ascii.eqb c " " then "_"%char else c) <$> String.get i s.
Proof.
  revert i. induction s as [|c s IH]; intros i; [done|].
  destruct i as [|i]; [done|]. simpl. apply IH.
Qed.

Lemma replace_spaces_no_space (s : string) i :
  String.get i (Routes.replace_spaces s) ≠ Some " "%char.
Proof.
  rewrite replace_spaces_get. destruct (String.get i s) as [c|]; [|done]. simpl.
  destruct (Ascii.eqb c " ") eqn:Hc; [done|].
  intros [= ->]. by rewrite Ascii.eqb_refl in Hc.
Qed.

Lemma replace_spaces_fixed (s : string) :
  (∀ i, String.get i s ≠ Some " "%char) → Routes.replace_spaces s = s.
Proof.
  induction s as [|c s IH]; intros Hs; [done|]. simpl.
  rewrite IH by (intros i; apply (Hs (S i))).
  destruct (Ascii.eqb c " ") eqn:Hc; [|done].
  apply Ascii.eqb_eq in Hc as ->. by destruct (Hs 0).
Qed.

(** X15. Replacing the spaces of a title by underscores keeps its length
    and every other character, leaves no space, changes nothing in a
    title without spaces, and so gives the same title when done twice. *)
Theorem replace_spaces_normalizes (s : string) :
  String.length (Routes.replace_spaces s) = String.length s ∧
  (∀ i c, String.get i s = Some c → c ≠ " "%char →
          String.get i (Routes.replace_spaces s) = Some c) ∧
  (∀ i, String.get i (Routes.replace_spaces s) ≠ Some " "%char) ∧
  ((∀ i, String.get i s ≠ Some " "%char) → Routes.replace_spaces s = s) ∧
  Routes.replace_spaces (Routes.replace_spaces s) = Routes.replace_spaces s.
Proof.
  split; [|split; [|split; [|split]]].
  - induction s as [|c s IH]; [done|]. simpl. by rewrite IH.
  - intros i c Hget Hc. rewrite replace_spaces_get, Hget. simpl.
    destruct (Ascii.eqb c " ") eqn:Heq; [|done]. by apply Ascii.eqb_eq in Heq.
  - apply replace_spaces_no_space.
  - apply replace_spaces_fixed.
  - apply replace_spaces_fixed, replace_spaces_no_space.
Qed.

(** Every prefix of the list, also lower-cased, has a colon. *)
Lemma prefixes_have_a_colon :
  Forall (λ prefix, ∃ i, String.get i prefix = Some ":"%char ∧
                         String.get i (Routes.toLowerCase prefix) = Some ":"%char)
         Routes.NON_ARTICLE_PREFIXES.
Proof.
  unfold Routes.NON_ARTICLE_PREFIXES.
  repeat (apply Forall_cons; split;
    [first [by exists 4 | by exists 5 | by exists 6 | by exists 7 | by exists 8
           | by exists 9 | by exists 10 ]|]).
  apply Forall_nil_2.
Qed.

(** X16. A link whose title starts with one of the listed prefixes, as
    written or in lower case, is not an article link, whatever follows the
    prefix; a title without a colon is always an article link. *)
Theorem isArticleLink_filters_by_prefix :
  (∀ prefix rest, prefix ∈ Routes.NON_ARTICLE_PREFIXES →
     Routes.isArticleLink (prefix +:+ rest) = false ∧
     Routes.isArticleLink (Routes.toLowerCase prefix +:+ rest) = false) ∧
  (∀ href, (∀ i, String.get i href ≠ Some ":"%char) →
     Routes.isArticleLink href = true).
Proof.
  split.
  - intros prefix rest Hin. unfold Routes.isArticleLink.
    split; apply negb_false_iff, existsb_exists; exists prefix;
      (split; [by apply list_elem_of_In|]); rewrite startsWith_app;
      [done | apply orb_true_r].
  - intros href Hnone. unfold Routes.isArticleLink.
    apply negb_true_iff. apply not_true_iff_false. intros Hex.
    apply existsb_exists in Hex as (prefix & Hin%list_elem_of_In & Hstarts).
    pose proof prefixes_have_a_colon as Hcolon.
    rewrite Forall_forall in Hcolon.
    destruct (Hcolon prefix Hin) as (i & Hi & Hi').
    apply orb_true_iff in Hstarts as [Hstarts|Hstarts].
    + by destruct (Hnone i); apply (startsWith_get _ _ Hstarts).
    + by destruct (Hnone i); apply (startsWith_get _ _ Hstarts).
Qed.

(** X17. [POST /api/game/new] with a non-empty start and target article
    answers with these two, spaces replaced, without asking Wikipedia (the
    answer does not depend on what Wikipedia would say, or on whether the
    request to it fails).  When either article is missing or empty the
    other one is ignored: the answer is the one for a request without
    articles, the first two random titles, or the error 500 when the
    request to Wikipedia fails. *)
Theorem new_game_uses_both_articles_or_none startArticle targetArticle answer :
  (∀ a b, startArticle = Some a → targetArticle = Some b → a ≠ "" → b ≠ "" →
     Routes.new_game startArticle targetArticle answer =
       Routes.json (Some (Routes.replace_spaces a)) (Some (Routes.replace_spaces b))) ∧
  (Routes.truthy startArticle = false ∨ Routes.truthy targetArticle = false →
     Routes.new_game startArticle targetArticle answer =
       Routes.new_game None None answer ∧
     (answer = None → Routes.new_game startArticle targetArticle answer = Routes.error500) ∧
     (∀ titles, answer = Some titles →
        Routes.new_game startArticle targetArticle answer =
          Routes.json (Routes.replace_spaces <$> titles !! 0)
                      (Routes.replace_spaces <$> titles !! 1))).
Proof.
  split.
  - intros a b -> -> Ha Hb. unfold Routes.new_game, Routes.truthy.
    apply String.eqb_neq in Ha, Hb. by rewrite Ha, Hb.
  - intros Hfalsy.
    assert (Hrandom : Routes.new_game startArticle targetArticle answer =
              Routes.new_game None None answer).
    { unfold Routes.new_game.
      by destruct Hfalsy as [-> | ->]; rewrite ?andb_false_r. }
    split; [done|]. rewrite Hrandom. split.
    + by intros ->.
    + intros titles ->. unfold Routes.new_game, Routes.getRandomArticles. simpl.
      by rewrite !list_lookup_fmap.
Qed.

(** X18. No article in an answer of [POST /api/game/new] has a space, and
    sending the two articles of an answer back gives the same answer
    again when neither is empty. *)
Theorem new_game_answers_are_normalized startArticle targetArticle answer a b :
  Routes.new_game startArticle targetArticle answer = Routes.json a b →
  (∀ title i, a = Some title ∨ b = Some title →
     String.get i title ≠ Some " "%char) ∧
  (∀ answer', Routes.truthy a = true → Routes.truthy b = true →
     Routes.new_game a b answer' = Routes.json a b).
Proof.
  intros Hreply.
  assert (Hnorm : ∀ title, a = Some title ∨ b = Some title →
            ∃ raw, title = Routes.replace_spaces raw).
  { unfold Routes.new_game in Hreply.
    destruct (Routes.truthy startArticle && Routes.truthy targetArticle).
    - simpl in Hreply. simplify_eq. intros title [[= <-]|[= <-]]; eauto.
    - unfold Routes.getRandomArticles in Hreply.
      destruct answer as [titles|]; simplify_eq/=.
      rewrite !list_lookup_fmap.
      intros title [Ht|Ht];
        [destruct (titles !! 0)|destruct (titles !! 1)]; simplify_eq/=; eauto. }
  split.
  - intros title i Ht. destruct (Hnorm title Ht) as [raw ->].
    apply replace_spaces_no_space.
  - intros answer' Ha Hb. unfold Routes.new_game. rewrite Ha, Hb. simpl.
    destruct a as [ta|]; [|done]. destruct b as [tb|]; [|done]. simpl.
    destruct (Hnorm ta (or_introl eq_refl)) as [ra ->].
    destruct (Hnorm tb (or_intror eq_refl)) as [rb ->].
    by rewrite !(proj2 (proj2 (proj2 (proj2 (replace_spaces_normalizes _))))).
Qed.

(** * The game page of the client *)

(** What holds of the page during a game that started on [start] and
    [target]. *)
Lemma act_keeps_game (start target : string) (p : Client.Page) (a : Client.Action) :
  (∃ g, Client.gameState p = Some g ∧
     Client.startArticle g = start ∧ Client.targetArticle g = target ∧
     (∃ titles, Client.path g = start :: titles) ∧
     last (Client.path g) = Some (Client.currentArticle g) ∧
     Client.clicks g = (Z.of_nat (length (Client.path g)) - 1)%Z ∧
     (0 ≤ Client.timeLeft p ≤ 180)%Z ∧
     (Client.isComplete g = true →
        (Client.currentArticle g = target ∧ Client.showWinModal p = true) ∨
        (Client.timeLeft p = 0%Z ∧ Client.showLoseModal p = true))) →
  (∃ g, Client.gameState (Client.act p a) = Some g ∧
     Client.startArticle g = start ∧ Client.targetArticle g = target ∧
     (∃ titles, Client.path g = start :: titles) ∧
     last (Client.path g) = Some (Client.currentArticle g) ∧
     Client.clicks g = (Z.of_nat (length (Client.path g)) - 1)%Z ∧
     (0 ≤ Client.timeLeft (Client.act p a) ≤ 180)%Z ∧
     (Client.isComplete g = true →
        (Client.currentArticle g = target ∧ Client.showWinModal (Client.act p a) = true) ∨
        (Client.timeLeft (Client.act p a) = 0%Z ∧
         Client.showLoseModal (Client.act p a) = true))).
Proof.
  intros (g & Hg & Hstart & Htarget & (titles & Hpath) & Hlast & Hclicks & Htime & Hdone).
  destruct a as [title|]; simpl.
  - unfold Client.handleLinkClick. rewrite Hg.
    destruct (Client.isComplete g) eqn:Hc; simpl; [by exists g; eauto 10|].
    eexists. split; [done|]. simpl. do 2 (split; [done|]).
    split; [by exists (titles ++ [title]); rewrite Hpath|].
    split; [by rewrite last_snoc|].
    split; [rewrite length_app; simpl; lia|]. split; [done|].
    intros Hwin%bool_decide_eq_true. left. split; [by subst|].
    by rewrite bool_decide_true by (by subst).
  - unfold Client.tick. rewrite Hg.
    destruct (Client.isComplete g) eqn:Hc; [by exists g; eauto 10|].
    case_decide.
    + eexists. split; [done|]. simpl. repeat split; eauto; lia.
    + exists g. simpl. repeat split; eauto; try lia. by rewrite Hc.
Qed.

(** X19. From a new game on, whatever links are clicked and however many
    seconds pass: the game keeps its start and target article, the path
    begins with the start article and ends with the current article, the
    clicks are the length of the path less one, the clock stays between 0
    and 180, and a game that is complete either stands on the target
    article with the win modal shown or has the clock at 0 with the lose
    modal shown. *)
Theorem game_page_keeps_path_and_clicks p start target now actions :
  ∃ g, Client.gameState (foldl Client.act (Client.newGame p start target now) actions)
       = Some g ∧
     Client.startArticle g = start ∧ Client.targetArticle g = target ∧
     (∃ titles, Client.path g = start :: titles) ∧
     last (Client.path g) = Some (Client.currentArticle g) ∧
     Client.clicks g = (Z.of_nat (length (Client.path g)) - 1)%Z ∧
     (0 ≤ Client.timeLeft (foldl Client.act (Client.newGame p start target now) actions)
        ≤ 180)%Z ∧
     (Client.isComplete g = true →
        (Client.currentArticle g = target ∧
         Client.showWinModal
           (foldl Client.act (Client.newGame p start target now) actions) = true) ∨
        (Client.timeLeft
           (foldl Client.act (Client.newGame p start target now) actions) = 0%Z ∧
         Client.showLoseModal
           (foldl Client.act (Client.newGame p start target now) actions) = true)).
Proof.
  induction actions as [|a actions IH] using rev_ind.
  - eexists. split; [done|]. simpl. repeat split; eauto; lia.
  - rewrite foldl_snoc. by apply act_keeps_game.
Qed.

Lemma tick_counts_down p g :
  Client.gameState p = Some g → Client.isComplete g = false →
  (1 < Client.timeLeft p)%Z →
  Client.gameState (Client.tick p) = Some g ∧
  Client.timeLeft (Client.tick p) = (Client.timeLeft p - 1)%Z ∧
  Client.showLoseModal (Client.tick p) = Client.showLoseModal p.
Proof.
  intros Hg Hc Ht. unfold Client.tick. rewrite Hg, Hc.
  by rewrite decide_False by lia.
Qed.

Lemma tick_times_out p g :
  Client.gameState p = Some g → Client.isComplete g = false →
  (Client.timeLeft p ≤ 1)%Z →
  Client.timeLeft (Client.tick p) = 0%Z ∧
  Client.showLoseModal (Client.tick p) = true ∧
  ∃ g', Client.gameState (Client.tick p) = Some g' ∧
        Client.isComplete g' = true ∧
        Client.path g' = Client.path g ∧ Client.clicks g' = Client.clicks g ∧
        Client.currentArticle g' = Client.currentArticle g.
Proof.
  intros Hg Hc Ht. unfold Client.tick. rewrite Hg, Hc.
  rewrite decide_True by lia. simpl. eauto 10.
Qed.

Lemma tick_complete p g :
  Client.gameState p = Some g → Client.isComplete g = true → Client.tick p = p.
Proof. intros Hg Hc. unfold Client.tick. by rewrite Hg, Hc. Qed.

(** X20. The clock of a running game with [t] seconds left, at least one:
    for fewer than [t] seconds it counts down and leaves the game and the
    lose modal as they are; from the [t]-th second on it stands at 0, the
    lose modal is shown, and the game is complete with the path and the
    clicks it had. *)
Theorem clock_times_out_after_its_seconds p g t :
  Client.gameState p = Some g →
  Client.isComplete g = false →
  Client.timeLeft p = Z.of_nat t →
  1 ≤ t →
  (∀ n, n < t →
     Client.gameState (Nat.iter n Client.tick p) = Some g ∧
     Client.timeLeft (Nat.iter n Client.tick p) = Z.of_nat (t - n) ∧
     Client.showLoseModal (Nat.iter n Client.tick p) = Client.showLoseModal p) ∧
  (∀ n, t ≤ n →
     Client.timeLeft (Nat.iter n Client.tick p) = 0%Z ∧
     Client.showLoseModal (Nat.iter n Client.tick p) = true ∧
     ∃ g', Client.gameState (Nat.iter n Client.tick p) = Some g' ∧
           Client.isComplete g' = true ∧
           Client.path g' = Client.path g ∧ Client.clicks g' = Client.clicks g ∧
           Client.currentArticle g' = Client.currentArticle g).
Proof.
  intros Hg Hc Ht Hpos.
  assert (Hrun : ∀ n, n < t →
     Client.gameState (Nat.iter n Client.tick p) = Some g ∧
     Client.timeLeft (Nat.iter n Client.tick p) = Z.of_nat (t - n) ∧
     Client.showLoseModal (Nat.iter n Client.tick p) = Client.showLoseModal p).
  { induction n as [|n IH]; intros Hn.
    - simpl. by rewrite Nat.sub_0_r.
    - destruct IH as (Hg' & Ht' & Hl'); [lia|]. rewrite !Nat.iter_succ.
      destruct (tick_counts_down _ g Hg' Hc) as (Hg'' & Ht'' & Hl''); [lia|].
      rewrite Hg'', Ht'', Hl'', Ht', Hl'. split; [done|]. split; [lia|done]. }
  split; [exact Hrun|].
  intros n Hn. induction n as [|n IH]; [lia|]. rewrite !Nat.iter_succ.
  destruct (decide (t ≤ n)) as [Hle|Hlt].
  - destruct (IH Hle) as (Ht' & Hl' & g' & Hg' & Hc' & Hrest).
    rewrite (tick_complete _ g' Hg' Hc'). eauto 10.
  - assert (n = t - 1) as -> by lia.
    destruct (Hrun (t - 1)) as (Hg' & Ht' & _); [lia|].
    apply (tick_times_out _ g Hg' Hc). lia.
Qed.

Lemma foldl_drop_if_left_lookup (ids : list string) keys
    (m : gmap string Client.OpponentState) k :
  foldl (Client.drop_if_left ids) m keys !! k =
  if decide (k ∈ keys ∧ k ∉ ids) then None else m !! k.
Proof.
  revert m. induction keys as [|key keys IH]; intros m.
  { cbn [foldl]. case_decide as Hin; [|done]. destruct Hin as [Hin _].
    by apply not_elem_of_nil in Hin. }
  cbn [foldl]. rewrite IH. unfold Client.drop_if_left.
  destruct (decide (k ∈ keys ∧ k ∉ ids)) as [[Hin Hnot]|Hno].
  { rewrite decide_True; [done|]. split; [apply elem_of_cons; auto|done]. }
  destruct (decide (key ∈ ids)) as [Hkey|Hkey].
  - rewrite decide_False; [done|]. rewrite elem_of_cons.
    intros [[->|Hin] Hnot]; [done|]. by apply Hno.
  - destruct (decide (k = key)) as [->|Hne].
    + rewrite lookup_delete_eq. rewrite decide_True; [done|].
      split; [apply elem_of_cons; auto|done].
    + rewrite lookup_delete_ne by done. rewrite decide_False; [done|].
      rewrite elem_of_cons. intros [[->|Hin] Hnot]; [done|]. by apply Hno.
Qed.

(** X21. In multiplayer mode the listener of [player_left] stores the
    players of the message as the players of the lobby and keeps, of the
    opponents, those whose id is among these players, each with the state
    it had. *)
Theorem player_left_prunes_the_opponents p players :
  Client.gameMode p = Client.multiplayer →
  Client.lobbyPlayers (Client.on_player_left p players) = players ∧
  ∀ key, Client.opponents (Client.on_player_left p players) !! key =
         if decide (key ∈ players.*1) then Client.opponents p !! key else None.
Proof.
  intros Hmode. unfold Client.on_player_left. rewrite decide_True by done. simpl.
  split; [done|]. intros key. rewrite foldl_drop_if_left_lookup.
  destruct (decide (key ∈ players.*1)) as [Hin|Hnot].
  - rewrite decide_False; [done | naive_solver].
  - destruct (Client.opponents p !! key) as [o|] eqn:Ho; [|by case_decide].
    rewrite decide_True; [done|]. split; [|done].
    apply list_elem_of_fmap. exists (key, o). split; [done|].
    by apply elem_of_map_to_list.
Qed.

(** A progress report of one opponent, as the payload of
    [opponent_progress]. *)
Lemma on_opponent_progress_winner p playerId playerName article reported w o :
  Client.opponents p !! w = Some o → Client.isWinner o = true →
  ∃ o', Client.opponents
          (Client.on_opponent_progress p playerId playerName article reported) !! w
        = Some o' ∧ Client.isWinner o' = true.
Proof.
  intros Ho Hw. unfold Client.on_opponent_progress. case_decide; [|by exists o].
  simpl. destruct (decide (playerId = w)) as [->|Hne].
  - rewrite lookup_insert_eq. eexists. split; [done|]. simpl. by rewrite Ho, Hw.
  - rewrite lookup_insert_ne by done. by exists o.
Qed.

(** X22. In multiplayer mode the listener of [player_won] marks the winner
    among the opponents, keeping the clicks and the article known of it,
    and the progress reports that arrive afterwards, of the winner or of
    others, leave the mark. *)
Theorem a_win_outlasts_progress_reports p winnerId winnerName
    (reports : list (string * string * string * Z)) :
  Client.gameMode p = Client.multiplayer →
  (∃ o, Client.opponents (Client.on_player_won p winnerId winnerName) !! winnerId = Some o ∧
        Client.isWinner o = true ∧
        ∀ known, Client.opponents p !! winnerId = Some known →
          Client.o_clicks o = Client.o_clicks known ∧
          Client.o_currentArticle o = Client.o_currentArticle known ∧
          Client.o_name o = Client.o_name known) ∧
  ∃ o, Client.opponents
         (foldl (λ q r, Client.on_opponent_progress q r.1.1.1 r.1.1.2 r.1.2 r.2)
                (Client.on_player_won p winnerId winnerName) reports) !! winnerId
       = Some o ∧ Client.isWinner o = true.
Proof.
  intros Hmode.
  assert (Hwon : ∃ o, Client.opponents (Client.on_player_won p winnerId winnerName)
                        !! winnerId = Some o ∧
        Client.isWinner o = true ∧
        ∀ known, Client.opponents p !! winnerId = Some known →
          Client.o_clicks o = Client.o_clicks known ∧
          Client.o_currentArticle o = Client.o_currentArticle known ∧
          Client.o_name o = Client.o_name known).
  { unfold Client.on_player_won. rewrite decide_True by done. simpl.
    rewrite lookup_insert_eq. eexists. split; [done|]. split; [done|].
    intros known ->. by simpl. }
  split; [exact Hwon|].
  destruct Hwon as (o & Ho & Hw & _).
  revert Ho Hw. generalize (Client.on_player_won p winnerId winnerName). revert o.
  induction reports as [|r reports IH]; intros o q Ho Hw; [by exists o|].
  cbn [foldl].
  destruct (on_opponent_progress_winner q r.1.1.1 r.1.1.2 r.1.2 r.2 winnerId o Ho Hw)
    as (o' & Ho' & Hw').
  by apply (IH o').
Qed.

(** * The client and the server together *)

Lemma trim_not_empty (username : string) : trim username ≠ "" → username ≠ "".
Proof. intros Htrim ->. by apply Htrim. Qed.

(** X23. The start screen sends nothing for a username of white space
    only, and no [join_room] without a room code.  Whatever it sends
    carries the username as typed, and for it the name the server stores
    for the connection, on [create_room] and on an admitted [join_room],
    is that username, never a generated one. *)
Theorem typed_usernames_are_stored username :
  (trim username = "" →
     Client.createRoom username = [] ∧ ∀ code, Client.joinRoom code username = []) ∧
  (∀ username', Client.joinRoom "" username' = []) ∧
  (∀ m, m ∈ Client.createRoom username →
     m = Client.send_create_room username ∧
     ∀ s sid code r_adj r_animal,
       ∃ s' out, create_room s sid username code r_adj r_animal = Normal s' out ∧
                 stored_name s' code sid = Some username) ∧
  (∀ code m, m ∈ Client.joinRoom code username →
     m = Client.send_join_room code username ∧ code ≠ "" ∧
     ∀ s sid r_adj r_animal room,
       reachable s → rooms s !! code = Some room →
       gameState room = waiting → length (players room) < 8 →
       ∃ s' out, join_room s sid code username r_adj r_animal = Normal s' out ∧
                 stored_name s' code sid = Some username).
Proof.
  assert (Hname : ∀ r_adj r_animal, trim username ≠ "" →
            or_else username (generateName r_adj r_animal) = username).
  { intros r_adj r_animal Htrim. unfold or_else.
    rewrite decide_False; [done|]. by apply trim_not_empty. }
  split; [|split; [|split]].
  - intros Htrim. unfold Client.createRoom, Client.joinRoom.
    rewrite decide_True by done. split; [done|]. intros code.
    by repeat case_decide.
  - done.
  - unfold Client.createRoom. case_decide as Htrim.
    { intros m Hm. by apply not_elem_of_nil in Hm. }
    intros m ->%list_elem_of_singleton. split; [done|].
    intros s sid code r_adj r_animal.
    eexists _, _. split; [reflexivity|].
    unfold stored_name; simpl. rewrite lookup_insert_eq. simpl.
    by rewrite lookup_singleton_eq, Hname.
  - intros code m. unfold Client.joinRoom. case_decide as Hcode.
    { intros Hm. by apply not_elem_of_nil in Hm. }
    case_decide as Htrim.
    { intros Hm. by apply not_elem_of_nil in Hm. }
    intros ->%list_elem_of_singleton. do 2 (split; [done|]).
    intros s sid r_adj r_animal room Hs Hroom Hg Hlen.
    destruct (join_room_admits s sid code username r_adj r_animal room)
      as (s' & entries & Hjoin & Hroom'); [by apply reachable_consistent|done..|].
    eexists _, _. split; [exact Hjoin|].
    unfold stored_name. rewrite Hroom'. simpl.
    by rewrite lookup_insert_eq, Hname.
Qed.

(** X24. When [start_game] is handled for a room that lists the connection
    and the page of the connection, in multiplayer mode for that room,
    starts its game on the same start article, the page and the entry of
    the connection agree: no clicks, the start article as current article,
    and the start article alone as path and as history. *)
Theorem round_start_puts_page_and_server_in_sync
    s sid caller code start target room p now :
  reachable s →
  rooms s !! code = Some room →
  2 ≤ length (players room) →
  sid ∈ players room →
  Client.gameMode p = Client.multiplayer →
  Client.roomId p = code →
  ∃ s' out,
    start_game s caller code start target = Normal s' out ∧
    in_sync s' sid (Client.newGame p start target now).
Proof.
  intros Hs Hroom Hlen Hsid Hmode Hcode.
  destruct (reachable_consistent s Hs code room Hroom) as [Hstates _ _ _].
  destruct (Hstates sid Hsid) as [ps Hps].
  eexists _, _. split; [by apply start_game_Normal|].
  split; [done|].
  exists (started start target room), (reset_player start ps). eexists.
  split; [by unfold set_room; simpl; rewrite Hcode, lookup_insert_eq|].
  split; [done|]. split; [by apply started_member|]. by split.
Qed.

(** One click of a page in sync, and what the server makes of it. *)
Lemma click_keeps_in_sync s sid p title :
  in_sync s sid p →
  ∃ s' out,
    run s (deliver sid <$> (Client.handleLinkClick p title).2) = Normal s' out ∧
    in_sync s' sid (Client.handleLinkClick p title).1.
Proof.
  intros (Hmode & room & ps & g & Hroom & Hplaying & Hps & Hg & Hclicks & Hhist & Hcur).
  unfold Client.handleLinkClick. rewrite Hg.
  destruct (Client.isComplete g) eqn:Hc.
  { exists s, []. split; [done|]. split; [done|]. by exists room, ps, g. }
  rewrite !decide_True by done. cbn [fst snd].
  set (code := Client.roomId p) in *.
  set (reported := (Client.clicks g + 1)%Z).
  set (ps1 := progressed title reported ps).
  set (room1 := with_playerState sid ps1 room).
  assert (Hstep : update_progress s sid code title reported =
            Normal (set_room s code room1)
                   [emit (socket_to s sid code)
                         (opponent_progress sid (name ps) title reported)]).
  { unfold update_progress. rewrite Hroom, Hps.
    by rewrite decide_False by (by rewrite Hplaying; intros []). }
  assert (Hroom1 : rooms (set_room s code room1) !! code = Some room1).
  { unfold set_room; simpl. by rewrite lookup_insert_eq. }
  assert (Hps1 : playerStates room1 !! sid = Some ps1).
  { simpl. by rewrite lookup_insert_eq. }
  assert (Hsync : in_sync (set_room s code room1) sid
            {| Client.gameState :=
                 Some {| Client.startArticle := Client.startArticle g;
                         Client.targetArticle := Client.targetArticle g;
                         Client.currentArticle := title;
                         Client.path := Client.path g ++ [title];
                         Client.clicks := reported;
                         Client.startTime := Client.startTime g;
                         Client.isComplete := bool_decide (title = Client.targetArticle g) |};
               Client.timeLeft := Client.timeLeft p;
               Client.showWinModal :=
                 if bool_decide (title = Client.targetArticle g)
                 then true else Client.showWinModal p;
               Client.showLoseModal := Client.showLoseModal p;
               Client.gameMode := Client.gameMode p;
               Client.roomId := code;
               Client.lobbyPlayers := Client.lobbyPlayers p;
               Client.opponents := Client.opponents p |}).
  { split; [done|]. exists room1, ps1. eexists. simpl.
    split; [done|]. split; [done|]. split; [done|]. split; [done|].
    split; [done|]. split; [by rewrite Hhist|done]. }
  destruct (bool_decide (title = Client.targetArticle g)) eqn:Hwin.
  - eexists _, _. split; [|exact Hsync].
    cbn [app fmap list_fmap deliver run handle].
    rewrite Hstep.
    rewrite (game_win_member _ sid code _ room1 ps1 Hroom1 Hplaying Hps1).
    reflexivity.
  - eexists _, _. split; [|exact Hsync].
    cbn [app fmap list_fmap deliver run handle]. by rewrite Hstep.
Qed.

(** X25. A page in sync with the server stays in sync through any
    sequence of clicks: no handler throws on what the page emits, and
    after the clicks the entry of the connection still has the clicks, the
    path and the current article of the page, which is what the clicks
    alone make of the page. *)
Theorem clicks_keep_page_and_server_in_sync titles : ∀ s sid p,
  in_sync s sid p →
  ∃ s' p',
    session sid s p titles = Some (s', p') ∧
    p' = foldl Client.act p (Client.Click <$> titles) ∧
    in_sync s' sid p'.
Proof.
  induction titles as [|title titles IH]; intros s sid p Hsync.
  { by exists s, p. }
  destruct (click_keeps_in_sync s sid p title Hsync) as (s1 & out & Hrun & Hsync1).
  destruct (IH s1 sid _ Hsync1) as (s' & p' & Hsession & Hp' & Hsync').
  exists s', p'. cbn [session]. rewrite Hrun. by rewrite fmap_cons.
Qed.

(** * The further properties on the session *)

Lemma reachable_solo : reachable solo.
Proof. apply reachable_state_of. vm_compute. reflexivity. Defined.

Lemma round_room : rooms round !! "R1" = Some (room_of round "R1").
Proof. vm_compute. reflexivity. Defined.

Lemma lobby_room : rooms lobby !! "R1" = Some (room_of lobby "R1").
Proof. vm_compute. reflexivity. Defined.

Lemma registered_rooms_list_a_player_witness :
  reachable round ∧ rooms round !! "R1" = Some (room_of round "R1") ∧
  1 ≤ length (players (room_of round "R1")).
Proof.
  split; [exact reachable_round|]. split; [exact round_room|].
  exact (registered_rooms_list_a_player round "R1" _ reachable_round round_room).
Defined.

Lemma gameState_is_never_finished_witness :
  reachable round ∧ rooms round !! "R1" = Some (room_of round "R1") ∧
  gameState (room_of round "R1") ≠ finished.
Proof.
  split; [exact reachable_round|]. split; [exact round_room|].
  exact (gameState_is_never_finished round "R1" _ reachable_round round_room).
Defined.

Lemma ids_are_the_keys_witness :
  reachable round ∧ rooms round !! "R1" = Some (room_of round "R1") ∧
  ids_match "R1" (room_of round "R1").
Proof.
  split; [exact reachable_round|]. split; [exact round_room|].
  exact (ids_are_the_keys round "R1" _ reachable_round round_room).
Defined.

Lemma histories_span_the_round_witness :
  reachable after_progress ∧
  rooms after_progress !! "R1" = Some (room_of after_progress "R1") ∧
  round_histories (room_of after_progress "R1").
Proof.
  assert (Hs : reachable after_progress).
  { apply (run_reachable [progress_event] round _
             (match handle round progress_event with
              | Normal _ out => out | TypeError => [] end) reachable_round).
    vm_compute. reflexivity. }
  assert (Hroom : rooms after_progress !! "R1" = Some (room_of after_progress "R1"))
    by (vm_compute; reflexivity).
  split; [exact Hs|]. split; [exact Hroom|].
  exact (histories_span_the_round after_progress "R1" _ Hs Hroom).
Defined.


Lemma disconnect_only_shortens_players_witness :
  disconnect lobby "B" =
    Normal (state_of (disconnect lobby "B"))
           (match disconnect lobby "B" with
            | Normal _ out => out | TypeError => [] end) ∧
  rooms lobby !! "R1" = Some (room_of lobby "R1") ∧
  ∀ room', rooms (state_of (disconnect lobby "B")) !! "R1" = Some room' →
    players room' = filter (λ pid, pid ≠ "B") (players (room_of lobby "R1")) ∧
    playerStates room' = playerStates (room_of lobby "R1").
Proof.
  assert (Hleave : disconnect lobby "B" =
            Normal (state_of (disconnect lobby "B"))
                   (match disconnect lobby "B" with
                    | Normal _ out => out | TypeError => [] end))
    by (vm_compute; reflexivity).
  split; [exact Hleave|]. split; [exact lobby_room|].
  intros room' Hroom'.
  destruct (proj2 (disconnect_only_shortens_players lobby "B" _ _ "R1" _
                     Hleave lobby_room) room' Hroom') as (Hp & _ & _ & _ & Hst).
  by split.
Defined.



Lemma join_room_admits_and_announces_witness :
  reachable solo ∧ rooms solo !! "R1" = Some (room_of solo "R1") ∧
  gameState (room_of solo "R1") = waiting ∧
  length (players (room_of solo "R1")) < 8 ∧
  ∃ s' entries playerName,
    join_room solo "B" "R1" "Bob" 0 0 =
      Normal s' [callback "B" (join_room_ack "R1" entries);
                 emit (io_to s' "R1") (player_joined entries)] ∧
    entries.*1 = players (room_of solo "R1") ++ ["B"] ∧
    last entries = Some ("B", playerName) ∧
    "B" ∈ io_to s' "R1".
Proof.
  assert (Hroom : rooms solo !! "R1" = Some (room_of solo "R1"))
    by (vm_compute; reflexivity).
  assert (Hg : gameState (room_of solo "R1") = waiting) by (vm_compute; reflexivity).
  assert (Hlen : length (players (room_of solo "R1")) < 8) by (vm_compute; lia).
  do 4 (split; [done || exact reachable_solo|]).
  destruct (join_room_admits_and_announces solo "B" "R1" "Bob" 0 0 _
              reachable_solo Hroom Hg Hlen)
    as (s' & room' & entries & playerName & Hjoin & _ & _ & _ & _ & _ & Hids & Hlast &
        _ & Hin).
  by exists s', entries, playerName.
Defined.

Lemma handlers_touch_only_the_named_room_witness :
  handle round progress_event =
    Normal after_progress
           [emit (socket_to round "B" "R1")
                 (opponent_progress "B" "Super Dragon" "Cat" 1)] ∧
  event_code progress_event = Some "R1" ∧
  rooms after_progress !! "R2" = rooms round !! "R2".
Proof.
  assert (Hstep : handle round progress_event =
            Normal after_progress
                   [emit (socket_to round "B" "R1")
                         (opponent_progress "B" "Super Dragon" "Cat" 1)])
    by (vm_compute; reflexivity).
  split; [exact Hstep|]. split; [reflexivity|].
  apply (handlers_touch_only_the_named_room round progress_event _ _ "R2" Hstep).
  - intros sid. discriminate.
  - simpl. intros [=].
Defined.


Lemma playing_only_through_start_game_witness :
  handle lobby (StartGame "A" "R1" "Dog" "Cat") =
    Normal round [emit (io_to lobby "R1") (game_started "Dog" "Cat")] ∧
  rooms round !! "R1" = Some (room_of round "R1") ∧
  gameState (room_of round "R1") = playing ∧
  ((∃ room, rooms lobby !! "R1" = Some room ∧ gameState room = playing) ∨
   (∃ sid start target room,
      StartGame "A" "R1" "Dog" "Cat" = StartGame sid "R1" start target ∧
      rooms lobby !! "R1" = Some room ∧ 2 ≤ length (players room))).
Proof.
  assert (Hstep : handle lobby (StartGame "A" "R1" "Dog" "Cat") =
            Normal round [emit (io_to lobby "R1") (game_started "Dog" "Cat")])
    by (vm_compute; reflexivity).
  assert (Hg : gameState (room_of round "R1") = playing) by (vm_compute; reflexivity).
  split; [exact Hstep|]. split; [exact round_room|]. split; [exact Hg|].
  exact (playing_only_through_start_game lobby _ _ _ "R1" _ Hstep round_room Hg).
Defined.

Lemma progress_reports_accumulate_witness :
  rooms round !! "R1" = Some (room_of round "R1") ∧
  gameState (room_of round "R1") = playing ∧
  playerStates (room_of round "R1") !! "B" = Some (player_of (room_of round "R1") "B") ∧
  ∃ s' outs room' ps',
    run round (progress_events "B" "R1" [("Cat", 1%Z); ("Owl", 2%Z)]) = Normal s' outs ∧
    length outs = 2 ∧
    rooms s' !! "R1" = Some room' ∧
    playerStates room' !! "B" = Some ps' ∧
    history ps' = history (player_of (room_of round "R1") "B") ++ ["Cat"; "Owl"] ∧
    currentArticle ps' = "Owl" ∧ clicks ps' = 2%Z.
Proof.
  assert (Hg : gameState (room_of round "R1") = playing) by (vm_compute; reflexivity).
  assert (Hps : playerStates (room_of round "R1") !! "B" =
                Some (player_of (room_of round "R1") "B"))
    by (vm_compute; reflexivity).
  do 3 (split; [done || exact round_room|]).
  destruct (progress_reports_accumulate [("Cat", 1%Z); ("Owl", 2%Z)] round "B" "R1" _ _
              round_room Hg Hps)
    as (s' & outs & room' & ps' & Hrun & Hlen & Hroom' & _ & _ & Hps' & _ & Hhist &
        Hcur & Hclicks).
  by exists s', outs, room', ps'.
Defined.

Lemma stored_name_is_never_empty_witness :
  reachable init ∧
  ∃ s' out playerName,
    create_room init "A" "" "R1" 0 0 = Normal s' out ∧
    stored_name s' "R1" "A" = Some playerName ∧ playerName ≠ "".
Proof.
  split; [exact reachable_init|].
  exact (proj1 (stored_name_is_never_empty init "A" "R1" "" 0 0 reachable_init)).
Defined.

Lemma new_game_answers_are_normalized_witness :
  Routes.new_game None None (Some ["New York"; "Los Angeles"]) =
    Routes.json (Some "New_York") (Some "Los_Angeles") ∧
  Routes.new_game (Some "New_York") (Some "Los_Angeles") None =
    Routes.json (Some "New_York") (Some "Los_Angeles").
Proof.
  assert (Hreply : Routes.new_game None None (Some ["New York"; "Los Angeles"]) =
            Routes.json (Some "New_York") (Some "Los_Angeles")) by reflexivity.
  split; [exact Hreply|].
  apply (proj2 (new_game_answers_are_normalized _ _ _ _ _ Hreply)); reflexivity.
Defined.

Lemma clock_times_out_after_its_seconds_witness :
  Client.timeLeft round_page = Z.of_nat 180 ∧
  Client.timeLeft (Nat.iter 179 Client.tick round_page) = 1%Z ∧
  Client.timeLeft (Nat.iter 180 Client.tick round_page) = 0%Z ∧
  Client.showLoseModal (Nat.iter 180 Client.tick round_page) = true.
Proof.
  assert (Hg : Client.gameState round_page =
               Some {| Client.startArticle := "Dog"; Client.targetArticle := "Cat";
                       Client.currentArticle := "Dog"; Client.path := ["Dog"];
                       Client.clicks := 0; Client.startTime := 0;
                       Client.isComplete := false |}) by reflexivity.
  assert (Ht : Client.timeLeft round_page = Z.of_nat 180) by reflexivity.
  assert (Hpos : 1 ≤ 180) by lia.
  destruct (clock_times_out_after_its_seconds round_page _ 180 Hg eq_refl Ht Hpos)
    as [Hbefore Hafter].
  split; [exact Ht|].
  destruct (Hbefore 179) as (_ & H179 & _); [lia|].
  destruct (Hafter 180) as (H180 & Hlose & _); [lia|].
  split; [by rewrite H179|]. by split.
Defined.

Lemma player_left_prunes_the_opponents_witness :
  Client.gameMode round_page = Client.multiplayer ∧
  Client.lobbyPlayers (Client.on_player_left round_page [("A", "Ann")]) = [("A", "Ann")] ∧
  Client.opponents (Client.on_player_left round_page [("A", "Ann")]) !! "B" = None.
Proof.
  assert (Hmode : Client.gameMode round_page = Client.multiplayer) by reflexivity.
  destruct (player_left_prunes_the_opponents round_page [("A", "Ann")] Hmode)
    as [Hplayers Hopponents].
  split; [exact Hmode|]. split; [exact Hplayers|].
  rewrite (Hopponents "B"). reflexivity.
Defined.

Lemma a_win_outlasts_progress_reports_witness :
  Client.gameMode round_page = Client.multiplayer ∧
  ∃ o, Client.opponents
         (Client.on_opponent_progress (Client.on_player_won round_page "A" "Ann")
                                      "A" "Ann" "Owl" 3) !! "A" = Some o ∧
       Client.isWinner o = true.
Proof.
  assert (Hmode : Client.gameMode round_page = Client.multiplayer) by reflexivity.
  split; [exact Hmode|].
  exact (proj2 (a_win_outlasts_progress_reports round_page "A" "Ann"
                  [("A", "Ann", "Owl", 3%Z)] Hmode)).
Defined.

Lemma round_start_puts_page_and_server_in_sync_witness :
  reachable lobby ∧ rooms lobby !! "R1" = Some (room_of lobby "R1") ∧
  2 ≤ length (players (room_of lobby "R1")) ∧
  "B" ∈ players (room_of lobby "R1") ∧
  ∃ s' out,
    start_game lobby "A" "R1" "Dog" "Cat" = Normal s' out ∧
    in_sync s' "B" round_page.
Proof.
  assert (Hlen : 2 ≤ length (players (room_of lobby "R1"))) by (vm_compute; lia).
  assert (HinB : "B" ∈ players (room_of lobby "R1"))
    by (apply (bool_decide_unpack _); vm_compute; exact I).
  do 4 (split; [done || exact reachable_lobby || exact lobby_room|]).
  exact (round_start_puts_page_and_server_in_sync lobby "B" "A" "R1" "Dog" "Cat" _
           lobby_page 0 reachable_lobby lobby_room Hlen HinB eq_refl eq_refl).
Defined.

Lemma clicks_keep_page_and_server_in_sync_witness :
  in_sync round "B" round_page ∧
  ∃ s' p',
    session "B" round round_page ["Owl"; "Cat"] = Some (s', p') ∧
    in_sync s' "B" p'.
Proof.
  assert (Hsync : in_sync round "B" round_page).
  { split; [reflexivity|].
    exists (room_of round "R1"), (player_of (room_of round "R1") "B").
    eexists. split; [exact round_room|].
    split; [vm_compute; reflexivity|]. split; [vm_compute; reflexivity|].
    split; [reflexivity|]. repeat split; vm_compute; reflexivity. }
  split; [exact Hsync|].
  destruct (clicks_keep_page_and_server_in_sync ["Owl"; "Cat"] round "B" round_page Hsync)
    as (s' & p' & Hsession & _ & Hsync').
  by exists s', p'.
Defined.
